(** * PedigreeProfiler: a shallow embedding of [pedigree_profiler.py]

    The Python program builds a graph of [Individual] objects linked by
    mother/father references and by mutable [children] lists, collects
    them in a [Pedigree], and narrows a set of four candidate modes of
    inheritance.

    Python objects are mutable and shared, so the embedding is over an
    explicit store: individuals live at locations of an object store, and
    each [children] attribute is a reference into a store of list objects
    (two individuals constructed with the same [children] argument share
    one list).  Reading an attribute of [None] raises [AttributeError];
    this is the only exception the modelled methods can raise, and it is
    threaded through a small error monad. *)

From stdpp Require Import base decidable option list functions strings gmap sets.

Set Warnings "-clear-no-such-hyp".

Open Scope string_scope.
Open Scope list_scope.

(** ** Locations and results *)

(** Object identities of [Individual] instances and of list objects. *)
Abbreviation loc := nat (only parsing).
Abbreviation lref := nat (only parsing).

(** Outcome of a Python call: a value, or a raised [AttributeError]. *)
Inductive result (A : Type) : Type :=
  | Ok (a : A)
  | AttributeError.
Arguments Ok {A} a.
Arguments AttributeError {A}.

Global Instance result_ret : MRet result := λ A a, Ok a.
Global Instance result_bind : MBind result := λ A B f m,
  match m with
  | Ok a => f a
  | AttributeError => AttributeError
  end.

(** Python's [any(f(x) for x in l)]: evaluates left to right, stops at the
    first true element, and propagates an exception raised on the way. *)
Fixpoint any_m {A : Type} (f : A → result bool) (l : list A) : result bool :=
  match l with
  | [] => Ok false
  | x :: l' => b ← f x; if (b : bool) then Ok true else any_m f l'
  end.

(** The three-valued answer of [is_carrier]: [True], [False] or [None]
    are [Some true], [Some false] and [None]. *)
Abbreviation carrier := (option bool) (only parsing).

(** Truthiness of a carrier answer ([None] is falsy). *)
Definition truthy (c : carrier) : bool :=
  match c with
  | Some true => true
  | _ => false
  end.

(** ** class Individual *)

Module Individual.

(** The attributes set by [__init__].  [children] holds the identity of
    a list object, not its contents. *)
Record t : Type := mk {
  id : string;
  sex : string;
  affected : bool;
  mother : option loc;
  father : option loc;
  children : lref
}.

Global Instance t_inhabited : Inhabited t :=
  populate (mk "" "" false None None 0).

End Individual.

(** The Python heap: the object store, the list store, and the next
    unused identity of each. *)
Record Heap : Type := mkHeap {
  objs : loc → Individual.t;
  lists : lref → list loc;
  next_obj : loc;
  next_list : lref
}.

Definition empty_heap : Heap :=
  mkHeap (λ _, inhabitant) (λ _, []) 0 0.

(** Attribute reads through the store. *)
Definition sex_of (h : Heap) (x : loc) : string := Individual.sex (objs h x).
Definition affected_of (h : Heap) (x : loc) : bool := Individual.affected (objs h x).
Definition mother_of (h : Heap) (x : loc) : option loc := Individual.mother (objs h x).
Definition father_of (h : Heap) (x : loc) : option loc := Individual.father (objs h x).
Definition children_of (h : Heap) (x : loc) : list loc :=
  lists h (Individual.children (objs h x)).

(** ** Methods of Individual *)

(** [Individual(id_number, sex, affected, mother, father, children)]:
    allocates the object; when [children] is [None] a new empty list is
    allocated for it, otherwise the given list object is stored as is. *)
Definition __init__ (h : Heap) (id_number sex : string) (affected : bool)
    (mother father : option loc) (children : option lref) : Heap * loc :=
  let self := next_obj h in
  match children with
  | Some l =>
      (mkHeap (<[self := Individual.mk id_number sex affected mother father l]> (objs h))
              (lists h) (S self) (next_list h), self)
  | None =>
      let l := next_list h in
      (mkHeap (<[self := Individual.mk id_number sex affected mother father l]> (objs h))
              (<[l := []]> (lists h)) (S self) (S l), self)
  end.

Definition set_father (i : Individual.t) (p : loc) : Individual.t :=
  Individual.mk (Individual.id i) (Individual.sex i) (Individual.affected i)
                (Individual.mother i) (Some p) (Individual.children i).

Definition set_mother (i : Individual.t) (p : loc) : Individual.t :=
  Individual.mk (Individual.id i) (Individual.sex i) (Individual.affected i)
                (Some p) (Individual.father i) (Individual.children i).

(** [parent.children.append(self)], evaluated in store [h]. *)
Definition append_child (h : Heap) (parent self : loc) : Heap :=
  let l := Individual.children (objs h parent) in
  mkHeap (objs h) (<[l := lists h l ++ [self]]> (lists h)) (next_obj h) (next_list h).

(** [self.add_parent_child_relationship(parent, sex)]. *)
Definition add_parent_child_relationship (h : Heap) (self parent : loc)
    (sex : string) : Heap :=
  if bool_decide (sex = "M") then
    let h1 := mkHeap (<[self := set_father (objs h self) parent]> (objs h))
                     (lists h) (next_obj h) (next_list h) in
    append_child h1 parent self
  else if bool_decide (sex = "F") then
    let h1 := mkHeap (<[self := set_mother (objs h self) parent]> (objs h))
                     (lists h) (next_obj h) (next_list h) in
    append_child h1 parent self
  else h.

(** [self.get_children()]. *)
Definition get_children (h : Heap) (self : loc) : list loc := children_of h self.

(** The generator element [child.affected and not child.father.affected]
    (with [parent_of] the attribute read on the child): the second
    operand is evaluated only for an affected child, and reading
    [.affected] of a missing parent raises. *)
Definition affected_with_unaffected (parent_of : Heap → loc → option loc)
    (h : Heap) (child : loc) : result bool :=
  if affected_of h child then
    match parent_of h child with
    | Some p => Ok (negb (affected_of h p))
    | None => AttributeError
    end
  else Ok false.

(** [self.is_carrier()]. *)
Definition is_carrier (h : Heap) (self : loc) : result carrier :=
  match mother_of h self, father_of h self with
  | Some mo, Some fa =>
      if bool_decide (children_of h self = []) then Ok None else
      b1 ← (if bool_decide (sex_of h self = "F") && negb (affected_of h self)
            then any_m (affected_with_unaffected father_of h) (children_of h self)
            else Ok false);
      if (b1 : bool) then Ok (Some true) else
      b2 ← (if bool_decide (sex_of h self = "M") && negb (affected_of h self)
            then any_m (affected_with_unaffected mother_of h) (children_of h self)
            else Ok false);
      if (b2 : bool) then Ok (Some true) else
      if negb (affected_of h self)
         && negb (affected_of h mo)
         && negb (affected_of h fa)
         && existsb (affected_of h)
              (filter (λ sibling, sibling ≠ self) (children_of h mo ++ children_of h fa))
      then Ok (Some true)
      else Ok (Some false)
  | _, _ => Ok None
  end.

(** ** class Pedigree *)

(** A pedigree holds the list of its individuals. *)
Record Pedigree : Type := mkPedigree { individuals : list loc }.

(** [self.find_affected()]. *)
Definition find_affected (h : Heap) (self : Pedigree) : list loc :=
  filter (λ individual, affected_of h individual = true) (individuals self).

(** [self.find_unaffected()]. *)
Definition find_unaffected (h : Heap) (self : Pedigree) : list loc :=
  filter (λ individual, affected_of h individual = false) (individuals self).

(** The initial value of [possible_modes]. *)
Definition all_modes : gset string :=
  {[ "Autosomal Dominant"; "Autosomal Recessive";
     "X-Linked Dominant"; "X-Linked Recessive" ]}.

(** [possible_modes.discard(m)]. *)
Definition discard (m : string) (possible_modes : gset string) : gset string :=
  possible_modes ∖ {[ m ]}.

(** [not p.affected and not p.is_carrier()]: the call is made only for an
    unaffected [p]. *)
Definition unaffected_non_carrier (h : Heap) (p : loc) : result bool :=
  if affected_of h p then Ok false
  else c ← is_carrier h p; Ok (negb (truthy c)).

(** The body of the loop of [find_mode_of_inheritance] for one affected
    [individual]. *)
Definition eliminate (h : Heap) (individual : loc) (possible_modes : gset string)
    : result (gset string) :=
  match father_of h individual, mother_of h individual with
  | Some fa, Some mo =>
      let possible_modes :=
        if negb (affected_of h fa) && negb (affected_of h mo)
        then discard "X-Linked Dominant" (discard "Autosomal Dominant" possible_modes)
        else possible_modes in
      c2 ← (b ← unaffected_non_carrier h fa;
            if (b : bool) then Ok true else unaffected_non_carrier h mo);
      let possible_modes :=
        if (c2 : bool) then discard "Autosomal Recessive" possible_modes
        else possible_modes in
      c3 ← (if bool_decide (sex_of h individual = "M")
            then unaffected_non_carrier h mo
            else Ok false);
      Ok (if (c3 : bool) then discard "X-Linked Recessive" possible_modes
          else possible_modes)
  | _, _ => Ok possible_modes
  end.

(** The [for] loop over the affected individuals. *)
Fixpoint eliminate_all (h : Heap) (affected : list loc) (possible_modes : gset string)
    : result (gset string) :=
  match affected with
  | [] => Ok possible_modes
  | individual :: rest =>
      possible_modes ← eliminate h individual possible_modes;
      eliminate_all h rest possible_modes
  end.

(** The value of [possible_modes] when the loop is left. *)
Definition possible_modes (h : Heap) (self : Pedigree) : result (gset string) :=
  eliminate_all h (find_affected h self) all_modes.

(** What [find_mode_of_inheritance] returns: a [str] or a [set]. *)
Inductive modes : Type :=
  | Str (m : string)
  | Set_ (s : gset string).

(** [possible_modes.pop() if len(possible_modes) == 1 else possible_modes]. *)
Definition pop_if_single (s : gset string) : modes :=
  match elements s with
  | [m] => Str m
  | _ => Set_ s
  end.

(** [self.find_mode_of_inheritance()]. *)
Definition find_mode_of_inheritance (h : Heap) (self : Pedigree) : result modes :=
  s ← possible_modes h self; Ok (pop_if_single s).

(** ** The example of the script: [pedigree9] *)

Definition individual (h : Heap) (id_number sex : string) (affected : bool) : Heap * loc :=
  __init__ h id_number sex affected None None None.

Definition pedigree9 : Heap * Pedigree :=
  let h := empty_heap in
  let '(h, I1) := individual h "I1" "M" false in
  let '(h, I2) := individual h "I2" "F" false in
  let '(h, I3) := individual h "I3" "F" false in
  let '(h, I4) := individual h "I4" "M" false in
  let '(h, I5) := individual h "I5" "F" true in
  let '(h, I6) := individual h "I6" "M" false in
  let '(h, I7) := individual h "I7" "F" false in
  let '(h, I8) := individual h "I8" "M" true in
  let '(h, I9) := individual h "I9" "F" false in
  let '(h, I10) := individual h "I10" "M" false in
  let '(h, I11) := individual h "I11" "F" true in
  let '(h, I12) := individual h "I12" "M" false in
  let h := add_parent_child_relationship h I3 I1 "M" in
  let h := add_parent_child_relationship h I3 I2 "F" in
  let h := add_parent_child_relationship h I4 I1 "M" in
  let h := add_parent_child_relationship h I4 I2 "F" in
  let h := add_parent_child_relationship h I5 I3 "F" in
  let h := add_parent_child_relationship h I5 I4 "M" in
  let h := add_parent_child_relationship h I6 I3 "F" in
  let h := add_parent_child_relationship h I6 I4 "M" in
  let h := add_parent_child_relationship h I7 I3 "F" in
  let h := add_parent_child_relationship h I7 I4 "M" in
  let h := add_parent_child_relationship h I8 I5 "F" in
  let h := add_parent_child_relationship h I9 I5 "F" in
  let h := add_parent_child_relationship h I10 I5 "F" in
  let h := add_parent_child_relationship h I11 I6 "M" in
  let h := add_parent_child_relationship h I12 I7 "F" in
  (h, mkPedigree [I1; I2; I3; I4; I5; I6; I7; I8; I9; I10; I11; I12]).

(** The modes denoted by a returned value. *)
Definition set_of (r : modes) : gset string :=
  match r with
  | Str m => {[ m ]}
  | Set_ s => s
  end.

(** ** The elimination rules, as the specification words them *)

(** "carrier status is True". *)
Definition carrier_status_true (h : Heap) (p : loc) : Prop :=
  is_carrier h p = Ok (Some true).

(** (1) "neither parent is affected". *)
Definition neither_parent_affected (h : Heap) (fa mo : loc) : Prop :=
  affected_of h fa = false ∧ affected_of h mo = false.

(** (2) "(the father is unaffected and the father's carrier status is not
    True) or (the mother is unaffected and the mother's carrier status is
    not True)". *)
Definition unaffected_non_carrier_parent (h : Heap) (fa mo : loc) : Prop :=
  (affected_of h fa = false ∧ ¬ carrier_status_true h fa)
  ∨ (affected_of h mo = false ∧ ¬ carrier_status_true h mo).

(** (3) "the individual is male and the mother is neither affected nor a
    carrier". *)
Definition male_of_clear_mother (h : Heap) (x mo : loc) : Prop :=
  sex_of h x = "M" ∧ ¬ (affected_of h mo = true ∨ carrier_status_true h mo).

(** Mode [m] is discarded on account of individual [x]: [x] has both
    parents recorded and one of the three rules names [m]. *)
Definition discards (h : Heap) (x : loc) (m : string) : Prop :=
  ∃ fa mo, father_of h x = Some fa ∧ mother_of h x = Some mo ∧
    ((neither_parent_affected h fa mo
        ∧ (m = "Autosomal Dominant" ∨ m = "X-Linked Dominant"))
     ∨ (unaffected_non_carrier_parent h fa mo ∧ m = "Autosomal Recessive")
     ∨ (male_of_clear_mother h x mo ∧ m = "X-Linked Recessive")).

(** ** The carrier heuristic, as the specification words it *)

(** (1) "female, unaffected, and has an affected child whose father is
    unaffected". *)
Definition unaffected_mother_of_affected (h : Heap) (x : loc) : Prop :=
  sex_of h x = "F" ∧ affected_of h x = false ∧
  ∃ child fa, child ∈ children_of h x ∧ affected_of h child = true
              ∧ father_of h child = Some fa ∧ affected_of h fa = false.

(** (2) "male, unaffected, and has an affected child whose mother is
    unaffected". *)
Definition unaffected_father_of_affected (h : Heap) (x : loc) : Prop :=
  sex_of h x = "M" ∧ affected_of h x = false ∧
  ∃ child mo, child ∈ children_of h x ∧ affected_of h child = true
              ∧ mother_of h child = Some mo ∧ affected_of h mo = false.

(** (3) "unaffected, both of its own parents are unaffected, and at least
    one sibling (drawn from the mother's children and the father's
    children, excluding the individual itself) is affected". *)
Definition unaffected_sibling_of_affected (h : Heap) (x : loc) : Prop :=
  affected_of h x = false ∧
  ∃ mo fa, mother_of h x = Some mo ∧ father_of h x = Some fa
           ∧ affected_of h mo = false ∧ affected_of h fa = false
           ∧ ∃ sibling, sibling ∈ children_of h mo ++ children_of h fa
                        ∧ sibling ≠ x ∧ affected_of h sibling = true.

(** ** Further pedigrees *)

(** An unaffected woman [P], daughter of two recorded founders, whose only
    child is affected and has no father recorded.  Returns the store and
    [P]. *)
Definition lone_mother : Heap * loc :=
  let h := empty_heap in
  let '(h, G1) := individual h "G1" "M" false in
  let '(h, G2) := individual h "G2" "F" false in
  let '(h, P) := individual h "P" "F" false in
  let '(h, C) := individual h "C" "M" true in
  let h := add_parent_child_relationship h P G1 "M" in
  let h := add_parent_child_relationship h P G2 "F" in
  let h := add_parent_child_relationship h C P "F" in
  (h, P).

(** The mirror image: an unaffected man [P], son of two recorded founders,
    whose only child is affected and has no mother recorded. *)
Definition lone_father : Heap * loc :=
  let h := empty_heap in
  let '(h, G1) := individual h "G1" "M" false in
  let '(h, G2) := individual h "G2" "F" false in
  let '(h, P) := individual h "P" "M" false in
  let '(h, C) := individual h "C" "F" true in
  let h := add_parent_child_relationship h P G1 "M" in
  let h := add_parent_child_relationship h P G2 "F" in
  let h := add_parent_child_relationship h C P "M" in
  (h, P).

(** A pedigree in which the unaffected mother [P] (both parents recorded)
    has an affected first child [Y] with no father recorded and an
    affected son [X] by the unaffected founder [Q]. *)
Definition half_recorded_sibship : Heap * Pedigree :=
  let h := empty_heap in
  let '(h, G1) := individual h "G1" "M" false in
  let '(h, G2) := individual h "G2" "F" false in
  let '(h, P) := individual h "P" "F" false in
  let '(h, Q) := individual h "Q" "M" false in
  let '(h, Y) := individual h "Y" "F" true in
  let '(h, X) := individual h "X" "M" true in
  let h := add_parent_child_relationship h P G1 "M" in
  let h := add_parent_child_relationship h P G2 "F" in
  let h := add_parent_child_relationship h Y P "F" in
  let h := add_parent_child_relationship h X P "F" in
  let h := add_parent_child_relationship h X Q "M" in
  (h, mkPedigree [G1; G2; P; Q; Y; X]).

(** An individual [X] with only a mother recorded, and a child.  Returns
    the store and [X]. *)
Definition one_parent : Heap * loc :=
  let h := empty_heap in
  let '(h, G) := individual h "G" "F" false in
  let '(h, X) := individual h "X" "F" false in
  let '(h, C) := individual h "C" "M" true in
  let h := add_parent_child_relationship h X G "F" in
  let h := add_parent_child_relationship h C X "F" in
  (h, X).

(** [P = Individual("P", "F", False)] followed by
    [X = Individual("X", "M", False, mother=P)].  Returns the store, [X]
    and [P]. *)
Definition mother_by_constructor : Heap * loc * loc :=
  let h := empty_heap in
  let '(h, P) := individual h "P" "F" false in
  let '(h, X) := __init__ h "X" "M" false (Some P) None None in
  (h, X, P).

(** ** The parent graph *)

(** [p] is recorded as the mother or as the father of [x]. *)
Definition parent_of (h : Heap) (x p : loc) : Prop :=
  mother_of h x = Some p ∨ father_of h x = Some p.

(** No individual is, transitively, its own ancestor. *)
Definition acyclic (h : Heap) : Prop :=
  ∀ x, ¬ tc (parent_of h) x x.

(** Every recorded parent lists the individual among its children. *)
Definition linked (h : Heap) : Prop :=
  ∀ x p, parent_of h x p → x ∈ children_of h p.

(** A list object created by the caller (for the [children] argument). *)
Definition new_list (h : Heap) (l : list loc) : Heap * lref :=
  (mkHeap (objs h) (<[next_list h := l]> (lists h)) (next_obj h) (S (next_list h)),
   next_list h).

(** Stores reached from the empty one by constructing individuals without
    [mother] and [father] arguments and linking existing individuals with
    [add_parent_child_relationship]. *)
Inductive built : Heap → Prop :=
  | built_empty : built empty_heap
  | built_list h l : built h → built (new_list h l).1
  | built_init h id_number sex affected children :
      built h →
      (∀ l, children = Some l → l < next_list h) →
      built (__init__ h id_number sex affected None None children).1
  | built_add h x p sex :
      built h → x < next_obj h → p < next_obj h →
      built (add_parent_child_relationship h x p sex).

(** What holds of every built store: recorded parents and the children
    lists of allocated individuals are allocated, and links are symmetric. *)
Definition well_built (h : Heap) : Prop :=
  (∀ x p, parent_of h x p → p < next_obj h)
  ∧ (∀ x, x < next_obj h → Individual.children (objs h x) < next_list h)
  ∧ linked h.

(** Two individuals linked by one call: [X.add_parent_child_relationship(P, "F")]. *)
Definition linked_pair : Heap :=
  add_parent_child_relationship
    (individual (individual empty_heap "P" "F" false).1 "X" "M" false).1 1 0 "F".

(** [omits h sub full]: the collection [sub] is [full] with some affected
    individuals that have both parents recorded left out. *)
Inductive omits (h : Heap) : list loc → list loc → Prop :=
  | omits_nil : omits h [] []
  | omits_keep x sub full : omits h sub full → omits h (x :: sub) (x :: full)
  | omits_drop x sub full :
      affected_of h x = true →
      is_Some (mother_of h x) → is_Some (father_of h x) →
      omits h sub full → omits h sub (x :: full).

(** ** Ancestors and generations *)

(** [l.append(x)] on the list object [l]. *)
Definition append (h : Heap) (l : lref) (x : loc) : Heap :=
  mkHeap (objs h) (<[l := lists h l ++ [x]]> (lists h)) (next_obj h) (next_list h).

(** The body of [self.get_ancestors(ancestors)] once [ancestors] is a list
    object: the mother is appended and her ancestors are collected into
    the same list, then the father and his.  The recursion has no cycle
    detection; [fuel] bounds its depth and [None] stands for a recursion
    that does not bottom out within it. *)
Fixpoint get_ancestors_into (fuel : nat) (h : Heap) (self : loc) (ancestors : lref)
    : option Heap :=
  match fuel with
  | 0 => None
  | S fuel =>
      h ← match mother_of h self with
          | Some mo => get_ancestors_into fuel (append h ancestors mo) mo ancestors
          | None => Some h
          end;
      match father_of h self with
      | Some fa => get_ancestors_into fuel (append h ancestors fa) fa ancestors
      | None => Some h
      end
  end.

(** [self.get_ancestors(ancestors)]: with no argument a new list is
    created; the list object that was filled is returned. *)
Definition get_ancestors (fuel : nat) (h : Heap) (self : loc) (ancestors : option lref)
    : option (Heap * lref) :=
  let '(h, l) := match ancestors with
                 | Some l => (h, l)
                 | None => new_list h []
                 end in
  h ← get_ancestors_into fuel h self l; Some (h, l).

(** [self.get_generation()], with the same bound on the recursion depth. *)
Fixpoint get_generation (fuel : nat) (h : Heap) (self : loc) : option nat :=
  match fuel with
  | 0 => None
  | S fuel =>
      match mother_of h self, father_of h self with
      | None, None => Some 0
      | mo, fa =>
          mother_generation ← match mo with
                              | Some mo => get_generation fuel h mo
                              | None => Some 0
                              end;
          father_generation ← match fa with
                              | Some fa => get_generation fuel h fa
                              | None => Some 0
                              end;
          Some (mother_generation `max` father_generation + 1)
      end
  end.

(** The sequence [get_ancestors] appends, read off the links alone: used
    to state what the list object ends up holding. *)
Fixpoint ancestors_dfs (fuel : nat) (h : Heap) (self : loc) : option (list loc) :=
  match fuel with
  | 0 => None
  | S fuel =>
      ma ← match mother_of h self with
           | Some mo => (mo ::.) <$> ancestors_dfs fuel h mo
           | None => Some []
           end;
      fa ← match father_of h self with
           | Some fa => (fa ::.) <$> ancestors_dfs fuel h fa
           | None => Some []
           end;
      Some (ma ++ fa)
  end.

(** The list object ends up extended by that sequence, and nothing else in
    the store changes. *)
Definition extended_by (h h' : Heap) (l : lref) (A : list loc) : Prop :=
  (∀ y, objs h' y = objs h y)
  ∧ next_obj h' = next_obj h ∧ next_list h' = next_list h
  ∧ ∀ l', lists h' l' = if decide (l = l') then lists h l ++ A else lists h l'.

(** An affected daughter of two unaffected founders. *)
Definition young_family : Heap * Pedigree :=
  let h := empty_heap in
  let '(h, F) := individual h "F" "M" false in
  let '(h, M) := individual h "M" "F" false in
  let '(h, D) := individual h "D" "F" true in
  let h := add_parent_child_relationship h D F "M" in
  let h := add_parent_child_relationship h D M "F" in
  (h, mkPedigree [F; M; D]).

(** Scanning the children [l] with [other] the attribute read on each
    child, an affected child with no [other] parent recorded comes before
    any affected child whose [other] parent is recorded and unaffected. *)
Definition half_recorded_first (other : Heap → loc → option loc) (h : Heap)
    (l : list loc) : Prop :=
  ∃ pre child post,
    l = pre ++ child :: post
    ∧ affected_of h child = true ∧ other h child = None
    ∧ ∀ c, c ∈ pre →
           affected_of h c = false ∨ ∃ p, other h c = Some p ∧ affected_of h p = true.

(** ** Unrecognised tags *)

Lemma add_parent_child_relationship_other_tag h self parent sex :
  sex ≠ "M" → sex ≠ "F" →
  add_parent_child_relationship h self parent sex = h.
Proof.
  intros HM HF. unfold add_parent_child_relationship.
  by rewrite !bool_decide_eq_false_2.
Qed.

(** ** Elimination rules *)

Lemma bind_Ok {A B : Type} (m : result A) (f : A → result B) (b : B) :
  m ≫= f = Ok b → ∃ a, m = Ok a ∧ f a = Ok b.
Proof. destruct m as [a|]; [eauto | discriminate]. Qed.

Lemma bind_AttributeError {A B : Type} (m : result A) (f : A → result B) :
  m ≫= f = AttributeError →
  m = AttributeError ∨ ∃ a, m = Ok a ∧ f a = AttributeError.
Proof. destruct m as [a|]; [right; eauto | left; reflexivity]. Qed.

Lemma unaffected_non_carrier_Ok h p b :
  unaffected_non_carrier h p = Ok b →
  b = true ↔ affected_of h p = false ∧ ¬ carrier_status_true h p.
Proof.
  unfold unaffected_non_carrier, carrier_status_true.
  destruct (affected_of h p).
  - intros E; injection E as <-. split; [discriminate | intros [? _]; discriminate].
  - destruct (is_carrier h p) as [[[|]|]|]; simpl; intros E;
      try discriminate E; injection E as <-; naive_solver congruence.
Qed.

Lemma unaffected_non_carrier_raises h p :
  unaffected_non_carrier h p = AttributeError →
  affected_of h p = false ∧ is_carrier h p = AttributeError.
Proof.
  unfold unaffected_non_carrier.
  destruct (affected_of h p); [discriminate |].
  destruct (is_carrier h p); [discriminate | done].
Qed.

Lemma elem_of_discard (m a : string) (s : gset string) :
  m ∈ discard a s ↔ m ∈ s ∧ m ≠ a.
Proof. unfold discard. set_solver. Qed.

Lemma discards_with_parents h x fa mo m :
  father_of h x = Some fa → mother_of h x = Some mo →
  discards h x m ↔
    (neither_parent_affected h fa mo
       ∧ (m = "Autosomal Dominant" ∨ m = "X-Linked Dominant"))
    ∨ (unaffected_non_carrier_parent h fa mo ∧ m = "Autosomal Recessive")
    ∨ (male_of_clear_mother h x mo ∧ m = "X-Linked Recessive").
Proof.
  intros Hf Hm. unfold discards. split.
  - intros (fa' & mo' & Hf' & Hm' & H).
    rewrite Hf in Hf'. rewrite Hm in Hm'.
    injection Hf' as <-. injection Hm' as <-. exact H.
  - intros H. exists fa, mo. auto.
Qed.

Lemma discards_needs_parents h x m :
  father_of h x = None ∨ mother_of h x = None → ¬ discards h x m.
Proof.
  intros H (fa & mo & Hf & Hm & _). destruct H; congruence.
Qed.

(** One turn of the loop: the modes that survive are those the three rules
    do not name; the turn raises only when an [is_carrier] call on an
    unaffected parent does. *)
Lemma eliminate_spec h x pm :
  match eliminate h x pm with
  | Ok s => ∀ m, m ∈ s ↔ m ∈ pm ∧ ¬ discards h x m
  | AttributeError =>
      ∃ p, (father_of h x = Some p ∨ mother_of h x = Some p)
           ∧ is_Some (father_of h x) ∧ is_Some (mother_of h x)
           ∧ is_carrier h p = AttributeError
  end.
Proof.
  unfold eliminate.
  destruct (father_of h x) as [fa|] eqn:Hf;
    [destruct (mother_of h x) as [mo|] eqn:Hm |].
  2,3: intros m; split; [intros ?; split; [done | apply discards_needs_parents; auto]
                        | intros [? _]; done].
  pose proof (unaffected_non_carrier_Ok h fa) as Pf.
  pose proof (unaffected_non_carrier_Ok h mo) as Pm.
  pose proof (unaffected_non_carrier_raises h fa) as Rf.
  pose proof (unaffected_non_carrier_raises h mo) as Rm.
  assert (D1 : negb (affected_of h fa) && negb (affected_of h mo) = true
               ↔ neither_parent_affected h fa mo).
  { unfold neither_parent_affected.
    destruct (affected_of h fa), (affected_of h mo); naive_solver. }
  assert (D3 : ∀ b, unaffected_non_carrier h mo = Ok b →
               (bool_decide (sex_of h x = "M") && b = true
                ↔ male_of_clear_mother h x mo)).
  { intros b Hb. specialize (Pm b Hb). unfold male_of_clear_mother.
    rewrite andb_true_iff, bool_decide_eq_true, Pm.
    destruct (affected_of h mo); naive_solver. }
  destruct (unaffected_non_carrier h fa) as [bf|]; simpl.
  2: { exists fa. destruct Rf as [_ Rf]; eauto. }
  specialize (Pf bf eq_refl).
  destruct (unaffected_non_carrier h mo) as [bm|]; simpl.
  2: { destruct Rm as [_ Rm]; [done|].
       destruct bf; simpl.
       - destruct (bool_decide (sex_of h x = "M")) eqn:Es; simpl.
         + exists mo. eauto.
         + apply bool_decide_eq_false in Es.
           intros m. rewrite (discards_with_parents h x fa mo m Hf Hm).
           unfold male_of_clear_mother, unaffected_non_carrier_parent.
           destruct (negb (affected_of h fa) && negb (affected_of h mo));
             rewrite ?elem_of_discard; naive_solver.
       - exists mo. eauto. }
  specialize (Pm bm eq_refl). specialize (D3 bm eq_refl).
  assert (D2 : (if bf then true else bm) = true
               ↔ unaffected_non_carrier_parent h fa mo).
  { unfold unaffected_non_carrier_parent. destruct bf; naive_solver. }
  assert (E : ∃ c2, (if bf then Ok true else Ok bm) = Ok c2
                    ∧ c2 = (if bf then true else bm)).
  { destruct bf; eauto. }
  destruct E as (c2 & -> & Ec2). rewrite <- Ec2 in D2. clear Ec2. simpl.
  assert (E : ∃ c3, (if bool_decide (sex_of h x = "M") then Ok bm else Ok false)
                    = Ok c3
                    ∧ c3 = bool_decide (sex_of h x = "M") && bm).
  { destruct (bool_decide (sex_of h x = "M")); eauto. }
  destruct E as (c3 & -> & Ec3). rewrite <- Ec3 in D3. clear Ec3. simpl.
  intros m. rewrite (discards_with_parents h x fa mo m Hf Hm).
  destruct (negb (affected_of h fa) && negb (affected_of h mo)), c2, c3;
    rewrite ?elem_of_discard; naive_solver.
Qed.

(** The whole loop, from any starting set. *)
Lemma eliminate_all_spec h l pm :
  match eliminate_all h l pm with
  | Ok s => ∀ m, m ∈ s ↔ m ∈ pm ∧ ∀ x, x ∈ l → ¬ discards h x m
  | AttributeError =>
      ∃ x p, x ∈ l
             ∧ (father_of h x = Some p ∨ mother_of h x = Some p)
             ∧ is_Some (father_of h x) ∧ is_Some (mother_of h x)
             ∧ is_carrier h p = AttributeError
  end.
Proof.
  revert pm. induction l as [|x l IH]; intros pm; simpl.
  - intros m. split; [| tauto].
    intros Hm. split; [done|]. intros y Hy. inversion Hy.
  - pose proof (eliminate_spec h x pm) as Hx.
    destruct (eliminate h x pm) as [s1|]; simpl.
    + specialize (IH s1).
      destruct (eliminate_all h l s1) as [s|].
      * intros m. rewrite IH, Hx. split.
        -- intros [[Hm Hd] Hl]. split; [done|].
           intros y Hy. apply elem_of_cons in Hy as [->|Hy]; auto.
        -- intros [Hm Hl]. repeat split; [done | |].
           ++ apply Hl. left.
           ++ intros y Hy. apply Hl. by right.
      * destruct IH as (y & p & Hy & H). exists y, p. split; [by right | done].
    + destruct Hx as (p & H). exists x, p. split; [left | done].
Qed.

(** A one-element set is returned as its element, any other set as it is:
    either way the value denotes the set the loop ended with. *)
Lemma set_of_pop_if_single (s : gset string) : set_of (pop_if_single s) = s.
Proof.
  unfold pop_if_single.
  destruct (elements s) as [|m [|m' l]] eqn:E; simpl; try reflexivity.
  rewrite <- (list_to_set_elements_L s), E. simpl. set_solver.
Qed.

Lemma pop_if_single_Str (s : gset string) (m : string) :
  pop_if_single s = Str m ↔ s = {[ m ]}.
Proof.
  split.
  - intros H. rewrite <- (set_of_pop_if_single s), H. reflexivity.
  - intros ->. unfold pop_if_single. by rewrite elements_singleton.
Qed.

Lemma pop_if_single_Set (s s' : gset string) :
  pop_if_single s = Set_ s' ↔ s' = s ∧ size s ≠ 1.
Proof.
  unfold pop_if_single, size, set_size. simpl.
  destruct (elements s) as [|m [|m' l]]; simpl; split.
  all: try (intros E; injection E as <-; split; [reflexivity | lia]).
  all: try (intros [-> _]; reflexivity).
  - discriminate.
  - intros [_ E]. lia.
Qed.

(** ** C1 *)

(** C1. [find_mode_of_inheritance] starts from the four candidate modes
    and, for every affected individual of the collection that has both a
    mother and a father recorded, applies exactly the three discards of
    [discards]; affected individuals missing a parent contribute nothing
    ([discards] needs both parents).  The value returned denotes the set
    of modes no such individual discards.  The call yields no value only
    when an [is_carrier] call on a parent of such an individual raises. *)
Theorem find_mode_of_inheritance_discards (h : Heap) (self : Pedigree) :
  match find_mode_of_inheritance h self with
  | Ok r =>
      ∀ m, m ∈ set_of r ↔
           m ∈ all_modes
           ∧ ∀ x, x ∈ individuals self → affected_of h x = true → ¬ discards h x m
  | AttributeError =>
      ∃ x p, x ∈ individuals self ∧ affected_of h x = true
             ∧ (father_of h x = Some p ∨ mother_of h x = Some p)
             ∧ is_Some (father_of h x) ∧ is_Some (mother_of h x)
             ∧ is_carrier h p = AttributeError
  end.
Proof.
  unfold find_mode_of_inheritance, possible_modes, find_affected.
  pose proof (eliminate_all_spec h
    (filter (λ individual, affected_of h individual = true) (individuals self))
    all_modes) as H.
  destruct (eliminate_all h _ all_modes) as [s|]; simpl.
  - intros m. rewrite set_of_pop_if_single, H.
    split; intros [Hm Hd]; (split; [done|]).
    + intros x Hx Ha. apply Hd. apply list_elem_of_filter. done.
    + intros x Hx. apply list_elem_of_filter in Hx as [Ha Hx]. auto.
  - destruct H as (x & p & Hx & H).
    apply list_elem_of_filter in Hx as [Ha Hx]. exists x, p. done.
Qed.


(** ** C2 *)

(** C2. On [pedigree9], the pedigree the script labels "Autosomal
    Recessive", [find_mode_of_inheritance] returns the two-element set of
    "Autosomal Recessive" and "X-Linked Recessive", not the single string
    "Autosomal Recessive": the affected sons of I5 have no father
    recorded, so nothing discards the X-linked recessive mode. *)
Theorem pedigree9_two_modes :
  find_mode_of_inheritance pedigree9.1 pedigree9.2
  = Ok (Set_ {[ "Autosomal Recessive"; "X-Linked Recessive" ]}).
Proof. vm_compute. reflexivity. Qed.

(** ** The carrier heuristic *)

Lemma affected_with_unaffected_Ok (parent : Heap → loc → option loc) h child b :
  affected_with_unaffected parent h child = Ok b →
  b = true ↔ affected_of h child = true
             ∧ ∃ p, parent h child = Some p ∧ affected_of h p = false.
Proof.
  unfold affected_with_unaffected.
  destruct (affected_of h child).
  - destruct (parent h child) as [p|]; [|discriminate].
    intros E; injection E as <-. rewrite negb_true_iff. naive_solver.
  - intros E; injection E as <-. naive_solver.
Qed.

Lemma affected_with_unaffected_raises (parent : Heap → loc → option loc) h child :
  affected_with_unaffected parent h child = AttributeError →
  affected_of h child = true ∧ parent h child = None.
Proof.
  unfold affected_with_unaffected.
  destruct (affected_of h child); [|discriminate].
  destruct (parent h child); [discriminate | done].
Qed.

(** The generator scanned by [any]: it answers whether some child is
    affected with the other parent recorded and unaffected, and raises only
    at an affected child whose other parent is missing. *)
Lemma any_affected_with_unaffected (parent : Heap → loc → option loc) h l :
  match any_m (affected_with_unaffected parent h) l with
  | Ok b =>
      b = true ↔ ∃ child p, child ∈ l ∧ affected_of h child = true
                            ∧ parent h child = Some p ∧ affected_of h p = false
  | AttributeError =>
      ∃ child, child ∈ l ∧ affected_of h child = true ∧ parent h child = None
  end.
Proof.
  induction l as [|c l IH]; simpl.
  - split; [discriminate | intros (child & p & H & _); inversion H].
  - pose proof (affected_with_unaffected_Ok parent h c) as HO.
    pose proof (affected_with_unaffected_raises parent h c) as HR.
    destruct (affected_with_unaffected parent h c) as [[|]|]; simpl.
    + split; [|done]. intros _.
      destruct (proj1 (HO true eq_refl) eq_refl) as (Ha & p & Hp & Hu).
      exists c, p. split; [left | done].
    + specialize (HO false eq_refl).
      destruct (any_m _ l) as [b|].
      * rewrite IH. split.
        -- intros (child & q & Hin & H). exists child, q. split; [by right | done].
        -- intros (child & q & Hin & Hc & Hq & Hu).
           apply elem_of_cons in Hin as [->|Hin]; [|by exists child, q].
           assert (false = true); [|done]. apply HO. eauto.
      * destruct IH as (child & Hin & H). exists child. split; [by right | done].
    + destruct HR as [Ha Hn]; [done|]. exists c. split; [left | done].
Qed.

Lemma affected_sibling_iff h x l :
  existsb (affected_of h) (filter (λ sibling, sibling ≠ x) l) = true
  ↔ ∃ sibling, sibling ∈ l ∧ sibling ≠ x ∧ affected_of h sibling = true.
Proof.
  rewrite existsb_exists. split.
  - intros (s & Hin & Ha). apply list_elem_of_In, list_elem_of_filter in Hin.
    exists s. tauto.
  - intros (s & Hin & Hne & Ha). exists s. split; [|done].
    apply list_elem_of_In, list_elem_of_filter. done.
Qed.

(** What [is_carrier] does for an individual with both parents and at least
    one child: a returned value is [True] or [False], [True] exactly under
    the three conditions; the call raises only for an unaffected individual
    with an affected child whose other parent is missing. *)
Lemma is_carrier_with_family h x mo fa :
  mother_of h x = Some mo → father_of h x = Some fa → children_of h x ≠ [] →
  match is_carrier h x with
  | Ok c =>
      ∃ b, c = Some b ∧
           (b = true ↔ unaffected_mother_of_affected h x
                       ∨ unaffected_father_of_affected h x
                       ∨ unaffected_sibling_of_affected h x)
  | AttributeError =>
      affected_of h x = false ∧
      ∃ child, child ∈ children_of h x ∧ affected_of h child = true
               ∧ ((sex_of h x = "F" ∧ father_of h child = None)
                  ∨ (sex_of h x = "M" ∧ mother_of h child = None))
  end.
Proof.
  intros Hmo Hfa Hch. unfold is_carrier. rewrite Hmo, Hfa.
  rewrite bool_decide_eq_false_2 by done.
  pose proof (any_affected_with_unaffected father_of h (children_of h x)) as HF.
  pose proof (any_affected_with_unaffected mother_of h (children_of h x)) as HM.
  assert (H3 : negb (affected_of h x) && negb (affected_of h mo)
               && negb (affected_of h fa)
               && existsb (affected_of h)
                    (filter (λ sibling, sibling ≠ x) (children_of h mo ++ children_of h fa))
               = true ↔ unaffected_sibling_of_affected h x).
  { unfold unaffected_sibling_of_affected.
    rewrite !andb_true_iff, !negb_true_iff, affected_sibling_iff. split.
    - intros [[[? ?] ?] ?]. split; [done|]. exists mo, fa. done.
    - intros (? & mo' & fa' & Hmo' & Hfa' & ? & ? & ?).
      rewrite Hmo in Hmo'. rewrite Hfa in Hfa'.
      injection Hmo' as <-. injection Hfa' as <-. done. }
  unfold unaffected_mother_of_affected, unaffected_father_of_affected.
  destruct (affected_of h x) eqn:Ha; simpl.
  { rewrite !andb_false_r. simpl. exists false. split; [done|].
    split; [discriminate|]. rewrite <- H3. simpl. naive_solver. }
  rewrite !andb_true_r.
  destruct (bool_decide (sex_of h x = "F")) eqn:EF.
  - apply bool_decide_eq_true in EF.
    rewrite (bool_decide_eq_false_2 (sex_of h x = "M")) by (rewrite EF; discriminate).
    destruct (any_m (affected_with_unaffected father_of h) (children_of h x)) as [[|]|];
      simpl.
    + exists true. split; [done|]. split; [|done]. intros _. left.
      split; [done|]. split; [done|]. by apply HF.
    + destruct (_ && _) eqn:E3.
      * exists true. split; [done|]. split; [|done]. intros _. right. right. by apply H3.
      * exists false. split; [done|]. split; [discriminate|].
        intros [(_ & _ & H)|[(HMale & _)|H]].
        -- by apply HF.
        -- rewrite EF in HMale. discriminate.
        -- by apply H3.
    + split; [done|]. destruct HF as (child & Hin & Hc & Hn). exists child. auto.
  - apply bool_decide_eq_false in EF. simpl.
    destruct (bool_decide (sex_of h x = "M")) eqn:EM.
    + apply bool_decide_eq_true in EM.
      destruct (any_m (affected_with_unaffected mother_of h) (children_of h x)) as [[|]|];
        simpl.
      * exists true. split; [done|]. split; [|done]. intros _. right. left.
        split; [done|]. split; [done|]. by apply HM.
      * destruct (_ && _) eqn:E3.
        -- exists true. split; [done|]. split; [|done]. intros _. right. right.
           by apply H3.
        -- exists false. split; [done|]. split; [discriminate|].
           intros [(HFem & _)|[(_ & _ & H)|H]].
           ++ done.
           ++ by apply HM.
           ++ by apply H3.
      * split; [done|]. destruct HM as (child & Hin & Hc & Hn). exists child. auto.
    + apply bool_decide_eq_false in EM. simpl.
      destruct (_ && _) eqn:E3.
      * exists true. split; [done|]. split; [|done]. intros _. right. right. by apply H3.
      * exists false. split; [done|]. split; [discriminate|].
        intros [(HFem & _)|[(HMale & _)|H]]; [done | done |]. by apply H3.
Qed.

(** ** C3 *)

(** C3. [lone_mother] is an individual with both parents recorded and a
    child, for whom none of the three conditions holds (her only child has
    no father recorded, she is not male, she has no sibling), so the
    heuristic should answer [False]; [is_carrier] raises [AttributeError]
    instead, at [child.father.affected]. *)
Theorem is_carrier_raises_where_False_expected :
  let h := lone_mother.1 in
  let x := lone_mother.2 in
  is_Some (mother_of h x) ∧ is_Some (father_of h x) ∧ children_of h x ≠ []
  ∧ ¬ (unaffected_mother_of_affected h x
       ∨ unaffected_father_of_affected h x
       ∨ unaffected_sibling_of_affected h x)
  ∧ is_carrier h x = AttributeError.
Proof.
  intros h x.
  assert (Hc : children_of h x = [3]) by reflexivity.
  assert (Hm : mother_of h x = Some 1) by reflexivity.
  assert (Hf : father_of h x = Some 0) by reflexivity.
  split; [by eexists|]. split; [by eexists|]. split; [by rewrite Hc|].
  split; [|reflexivity].
  intros [(_ & _ & child & fa & Hin & _ & Hfa & _)
         |[(Hsex & _)
          |(_ & mo & fa & Hmo & Hfa & _ & _ & s & Hin & Hne & _)]].
  - rewrite Hc in Hin. apply list_elem_of_singleton in Hin as ->.
    vm_compute in Hfa. discriminate.
  - vm_compute in Hsex. discriminate.
  - rewrite Hm in Hmo. rewrite Hf in Hfa.
    injection Hmo as <-. injection Hfa as <-.
    change (s ∈ [x] ++ [x]) in Hin.
    apply elem_of_app in Hin as [Hin|Hin];
      apply list_elem_of_singleton in Hin; done.
Qed.

(** ** C4 *)

(** A store in which every recorded parent was allocated before its child
    has no cycle. *)
Lemma acyclic_of_parents_first h :
  (∀ x p, parent_of h x p → p < x) → acyclic h.
Proof.
  intros Hlt x Hx.
  assert (H : ∀ a b, tc (parent_of h) a b → b < a).
  { intros a b Hab. induction Hab as [a b Hab | a b c Hab _ IH].
    - by apply Hlt.
    - apply Hlt in Hab. lia. }
  apply H in Hx. lia.
Qed.

(** C4. [lone_father] is built with the constructor and
    [add_parent_child_relationship] only and is acyclic; its unaffected
    man has both parents recorded and an affected child whose mother is
    not recorded.  [is_carrier] does not answer [True], [False] or [None]
    for him: it raises [AttributeError] at [child.mother.affected]. *)
Theorem is_carrier_raises_in_acyclic_pedigree :
  built lone_father.1 ∧ acyclic lone_father.1
  ∧ is_carrier lone_father.1 lone_father.2 = AttributeError.
Proof.
  split; [|split; [|reflexivity]].
  - change (built
      (add_parent_child_relationship
        (add_parent_child_relationship
          (add_parent_child_relationship
            (individual (individual (individual (individual empty_heap
               "G1" "M" false).1 "G2" "F" false).1 "P" "M" false).1 "C" "F" true).1
            2 0 "M") 2 1 "F") 3 2 "M")).
    unfold individual.
    repeat (apply built_add; [| simpl; lia | simpl; lia]).
    repeat (apply built_init; [| discriminate]).
    apply built_empty.
  - apply acyclic_of_parents_first. intros x p [H|H];
      destruct x as [|[|[|[|x]]]]; vm_compute in H;
      try discriminate H; injection H as <-; lia.
Qed.

(** ** C5 *)

(** When the loop completes, a single remaining mode is returned as a
    string and any other set (of size zero, two, three or four) as it is. *)
Lemma find_mode_of_inheritance_shape h self s :
  possible_modes h self = Ok s →
  (∃ m, s = {[ m ]} ∧ find_mode_of_inheritance h self = Ok (Str m))
  ∨ (size s ≠ 1 ∧ find_mode_of_inheritance h self = Ok (Set_ s)).
Proof.
  intros Hs. unfold find_mode_of_inheritance. rewrite Hs. simpl.
  destruct (pop_if_single s) as [m|s'] eqn:E.
  - left. exists m. split; [by apply pop_if_single_Str | done].
  - right. apply pop_if_single_Set in E as [-> Hsz]. done.
Qed.

(** [is_carrier] returns whenever every affected child of the individual
    has both parents recorded. *)
Lemma is_carrier_returns h x :
  (∀ child, child ∈ children_of h x → affected_of h child = true →
            is_Some (mother_of h child) ∧ is_Some (father_of h child)) →
  is_carrier h x ≠ AttributeError.
Proof.
  intros Hch Hr.
  destruct (mother_of h x) as [mo|] eqn:Hmo;
    [| unfold is_carrier in Hr; by rewrite Hmo in Hr].
  destruct (father_of h x) as [fa|] eqn:Hfa;
    [| unfold is_carrier in Hr; by rewrite Hmo, Hfa in Hr].
  destruct (decide (children_of h x = [])) as [Hc|Hc].
  { unfold is_carrier in Hr. rewrite Hmo, Hfa in Hr.
    by rewrite bool_decide_eq_true_2 in Hr. }
  pose proof (is_carrier_with_family h x mo fa Hmo Hfa Hc) as HF.
  rewrite Hr in HF. destruct HF as (_ & child & Hin & Ha & Hmiss).
  destruct (Hch child Hin Ha) as [[? Hm] [? Hf]].
  destruct Hmiss as [[_ H]|[_ H]]; congruence.
Qed.

(** Hence [find_mode_of_inheritance] returns on every pedigree in which
    each affected child has both parents recorded. *)
Lemma find_mode_of_inheritance_returns h self :
  (∀ x child, child ∈ children_of h x → affected_of h child = true →
              is_Some (mother_of h child) ∧ is_Some (father_of h child)) →
  ∃ r, find_mode_of_inheritance h self = Ok r.
Proof.
  intros Hch. unfold find_mode_of_inheritance, possible_modes.
  pose proof (eliminate_all_spec h (find_affected h self) all_modes) as H.
  destruct (eliminate_all h _ all_modes) as [s|]; simpl; [by eexists|].
  destruct H as (x & p & _ & _ & _ & _ & Hr).
  exfalso. revert Hr. apply is_carrier_returns. apply Hch.
Qed.

(** C5. [find_mode_of_inheritance] can fail: on [half_recorded_sibship]
    the affected son X has both parents recorded, his unaffected mother is
    asked [is_carrier], and that call raises at her first child, whose
    father is not recorded; the exception leaves
    [find_mode_of_inheritance] and no string or set is returned. *)
Theorem find_mode_of_inheritance_raises :
  find_mode_of_inheritance half_recorded_sibship.1 half_recorded_sibship.2
  = AttributeError.
Proof. vm_compute. reflexivity. Qed.

(** ** C8 *)

(** C8, as stated, fails: [one_parent] has a recorded mother (but no
    father) and a child, and [is_carrier] answers [None]. *)
Lemma is_carrier_None_with_a_parent_and_a_child :
  let h := one_parent.1 in
  let x := one_parent.2 in
  is_carrier h x = Ok None
  ∧ ¬ ((mother_of h x = None ∧ father_of h x = None) ∨ children_of h x = []).
Proof.
  intros h x. split; [reflexivity|].
  intros [[H _]|H]; vm_compute in H; discriminate H.
Qed.

(** C8, amended. [is_carrier] answers [None] exactly when the mother is not
    recorded, or the father is not recorded, or there is no child. *)
Theorem is_carrier_None_iff (h : Heap) (x : loc) :
  is_carrier h x = Ok None
  ↔ mother_of h x = None ∨ father_of h x = None ∨ children_of h x = [].
Proof.
  split.
  - intros H.
    destruct (mother_of h x) as [mo|] eqn:Hmo; [|by left].
    destruct (father_of h x) as [fa|] eqn:Hfa; [|by right; left].
    destruct (decide (children_of h x = [])) as [Hc|Hc]; [by right; right|].
    pose proof (is_carrier_with_family h x mo fa Hmo Hfa Hc) as HF.
    rewrite H in HF. destruct HF as (b & Hb & _). discriminate.
  - unfold is_carrier. intros [->|[H|H]]; [done | |].
    + rewrite H. by destruct (mother_of h x).
    + destruct (mother_of h x); [|done]. destruct (father_of h x); [|done].
      by rewrite bool_decide_eq_true_2.
Qed.

(** ** C9 *)

(** C9. With a sex tag other than "M" and "F",
    [add_parent_child_relationship] returns normally and leaves the whole
    store as it was: no parent link is set and no children sequence (nor
    any other attribute of any individual) changes. *)
Theorem add_parent_child_relationship_unrecognised
    (h : Heap) (self parent : loc) (sex : string) :
  sex ≠ "M" → sex ≠ "F" →
  add_parent_child_relationship h self parent sex = h.
Proof. apply add_parent_child_relationship_other_tag. Qed.

Lemma add_parent_child_relationship_unrecognised_witness :
  add_parent_child_relationship pedigree9.1 7 5 "X" = pedigree9.1.
Proof.
  apply (add_parent_child_relationship_unrecognised pedigree9.1 7 5 "X");
    discriminate.
Defined.

(** ** C10 *)

Lemma eliminate_all_no_parents h l pm :
  (∀ x, x ∈ l → father_of h x = None ∨ mother_of h x = None) →
  eliminate_all h l pm = Ok pm.
Proof.
  induction l as [|x l IH]; intros H; simpl; [done|].
  assert (E : eliminate h x pm = Ok pm).
  { unfold eliminate. destruct (H x) as [->| ->]; [left | done |].
    by destruct (father_of h x). }
  rewrite E. simpl. apply IH. intros y Hy. apply H. by right.
Qed.

(** C10. If no affected individual of the collection has both a mother and
    a father recorded, [find_mode_of_inheritance] discards nothing and
    returns the set of all four modes. *)
Theorem find_mode_of_inheritance_no_evidence (h : Heap) (self : Pedigree) :
  (∀ x, x ∈ individuals self → affected_of h x = true →
        father_of h x = None ∨ mother_of h x = None) →
  find_mode_of_inheritance h self = Ok (Set_ all_modes).
Proof.
  intros H. unfold find_mode_of_inheritance, possible_modes, find_affected.
  rewrite eliminate_all_no_parents.
  - reflexivity.
  - intros x Hx. apply list_elem_of_filter in Hx as [Ha Hx]. by apply H.
Qed.

Lemma find_mode_of_inheritance_no_evidence_witness :
  find_mode_of_inheritance one_parent.1 (mkPedigree [0; 1; 2]) = Ok (Set_ all_modes).
Proof.
  apply (find_mode_of_inheritance_no_evidence one_parent.1 (mkPedigree [0; 1; 2])).
  intros x Hx Ha. simpl in Hx.
  repeat (apply elem_of_cons in Hx as [->|Hx]);
    [vm_compute in Ha; discriminate Ha .. | left; reflexivity | inversion Hx].
Defined.

(** ** C6 *)

(** Whether a turn of the loop raises does not depend on the set it is
    given. *)
Lemma eliminate_raises_any h x pm pm' :
  eliminate h x pm = AttributeError → eliminate h x pm' = AttributeError.
Proof.
  unfold eliminate.
  destruct (father_of h x) as [fa|]; [|discriminate].
  destruct (mother_of h x) as [mo|]; [|discriminate].
  destruct (unaffected_non_carrier h fa) as [[|]|];
    destruct (unaffected_non_carrier h mo) as [[|]|];
    destruct (bool_decide (sex_of h x = "M")); simpl; congruence.
Qed.

Lemma eliminate_all_raises h l pm :
  eliminate_all h l pm = AttributeError →
  ∃ x, x ∈ l ∧ eliminate h x ∅ = AttributeError.
Proof.
  revert pm. induction l as [|x l IH]; intros pm; simpl; [discriminate|].
  destruct (eliminate h x pm) as [s|] eqn:E; simpl.
  - intros H. destruct (IH _ H) as (y & Hy & Hr). exists y. split; [by right | done].
  - intros _. exists x. split; [left | by apply (eliminate_raises_any h x pm)].
Qed.

Lemma eliminate_all_returns h l pm s :
  eliminate_all h l pm = Ok s →
  ∀ x, x ∈ l → eliminate h x ∅ ≠ AttributeError.
Proof.
  revert pm. induction l as [|x l IH]; intros pm; simpl.
  - intros _ y Hy. inversion Hy.
  - destruct (eliminate h x pm) as [s1|] eqn:E; simpl; [|discriminate].
    intros H y Hy Hr. apply elem_of_cons in Hy as [->|Hy].
    + apply (eliminate_raises_any h x ∅ pm) in Hr. congruence.
    + by apply (IH _ H y).
Qed.

Lemma omits_subseteq h sub full : omits h sub full → sub ⊆ full.
Proof.
  induction 1 as [|x sub full _ IH|x sub full _ _ _ _ IH]; intros y Hy.
  - done.
  - apply elem_of_cons in Hy as [->|Hy]; [left | right; by apply IH].
  - right. by apply IH.
Qed.

(** Fewer individuals consulted, more modes kept. *)
Lemma possible_modes_antitone h sub full s :
  sub ⊆ full →
  possible_modes h (mkPedigree full) = Ok s →
  ∃ s', possible_modes h (mkPedigree sub) = Ok s' ∧ s ⊆ s'.
Proof.
  unfold possible_modes, find_affected. simpl. intros Hsub Hfull.
  pose proof (eliminate_all_spec h
    (filter (λ individual, affected_of h individual = true) full) all_modes) as Sf.
  pose proof (eliminate_all_spec h
    (filter (λ individual, affected_of h individual = true) sub) all_modes) as Ss.
  pose proof (eliminate_all_returns h _ _ _ Hfull) as Hret.
  rewrite Hfull in Sf.
  destruct (eliminate_all h (filter _ sub) all_modes) as [s'|] eqn:E.
  - exists s'. split; [done|]. intros m. rewrite Sf, Ss.
    intros [Hm Hd]. split; [done|]. intros x Hx. apply Hd.
    apply list_elem_of_filter in Hx as [Ha Hx].
    apply list_elem_of_filter. split; [done | by apply Hsub].
  - apply eliminate_all_raises in E as (x & Hx & Hr).
    apply list_elem_of_filter in Hx as [Ha Hx].
    exfalso. apply (Hret x); [|done].
    apply list_elem_of_filter. split; [done | by apply Hsub].
Qed.

(** C6. The modes [find_mode_of_inheritance] returns for a pedigree are
    among the four initial ones, and leaving affected individuals with both
    parents recorded out of the collection yields a result that contains
    them all: removing evidence never tightens the result. *)
Theorem find_mode_of_inheritance_monotone (h : Heap) (full : list loc) (r : modes) :
  find_mode_of_inheritance h (mkPedigree full) = Ok r →
  set_of r ⊆ all_modes
  ∧ ∀ sub, omits h sub full →
           ∃ r', find_mode_of_inheritance h (mkPedigree sub) = Ok r'
                 ∧ set_of r ⊆ set_of r'.
Proof.
  unfold find_mode_of_inheritance. intros H.
  apply bind_Ok in H as (s & Hs & E). injection E as <-.
  rewrite set_of_pop_if_single. split.
  - pose proof (eliminate_all_spec h (find_affected h (mkPedigree full)) all_modes) as Sf.
    unfold possible_modes in Hs. rewrite Hs in Sf.
    intros m Hm. by apply Sf in Hm as [Hm _].
  - intros sub Hsub. apply omits_subseteq in Hsub.
    destruct (possible_modes_antitone h sub full s Hsub Hs) as (s' & Hs' & Hincl).
    exists (pop_if_single s'). rewrite Hs'. simpl.
    split; [done|]. by rewrite set_of_pop_if_single.
Qed.

Lemma find_mode_of_inheritance_monotone_witness :
  set_of (Set_ {[ "Autosomal Recessive"; "X-Linked Recessive" ]}) ⊆ all_modes
  ∧ ∀ sub, omits pedigree9.1 sub (individuals pedigree9.2) →
           ∃ r', find_mode_of_inheritance pedigree9.1 (mkPedigree sub) = Ok r'
                 ∧ set_of (Set_ {[ "Autosomal Recessive"; "X-Linked Recessive" ]})
                   ⊆ set_of r'.
Proof.
  apply (find_mode_of_inheritance_monotone pedigree9.1 (individuals pedigree9.2)).
  vm_compute. reflexivity.
Defined.

(** ** C7 *)

(** C7, as stated, fails: a mother given to the constructor is recorded on
    the child, and the child is in no children sequence. *)
Lemma mother_by_constructor_not_listed :
  let '(h, x, p) := mother_by_constructor in
  mother_of h x = Some p ∧ x ∉ children_of h p.
Proof.
  simpl. split; [reflexivity|]. intros H. vm_compute in H. inversion H.
Qed.

(** The effect of a call with a recognised tag, attribute by attribute. *)
Lemma add_parent_child_relationship_effect h x p sex :
  sex = "M" ∨ sex = "F" →
  let h' := add_parent_child_relationship h x p sex in
  next_obj h' = next_obj h ∧ next_list h' = next_list h
  ∧ (∀ y, Individual.children (objs h' y) = Individual.children (objs h y))
  ∧ (∀ l, lists h' l = if decide (Individual.children (objs h p) = l)
                       then lists h l ++ [x] else lists h l)
  ∧ (∀ y, y ≠ x → objs h' y = objs h y)
  ∧ (sex = "M" → father_of h' x = Some p ∧ mother_of h' x = mother_of h x)
  ∧ (sex = "F" → mother_of h' x = Some p ∧ father_of h' x = father_of h x).
Proof.
  intros [-> | ->]; cbv zeta;
    unfold add_parent_child_relationship, append_child; simpl.
  - split; [done|]. split; [done|].
    assert (Hc : ∀ y, Individual.children
                        ((<[x := set_father (objs h x) p]> (objs h)) y)
                      = Individual.children (objs h y)).
    { intros y. destruct (decide (x = y)) as [->|Hne].
      - by rewrite fn_lookup_insert.
      - by rewrite fn_lookup_insert_ne. }
    split; [exact Hc|]. split.
    { intros l. rewrite Hc. unfold insert at 1, fn_insert.
      destruct (decide (Individual.children (objs h p) = l)) as [->|]; done. }
    split; [intros y Hy; by rewrite fn_lookup_insert_ne|].
    split; [|discriminate]. intros _.
    unfold father_of, mother_of. simpl. by rewrite fn_lookup_insert.
  - split; [done|]. split; [done|].
    assert (Hc : ∀ y, Individual.children
                        ((<[x := set_mother (objs h x) p]> (objs h)) y)
                      = Individual.children (objs h y)).
    { intros y. destruct (decide (x = y)) as [->|Hne].
      - by rewrite fn_lookup_insert.
      - by rewrite fn_lookup_insert_ne. }
    split; [exact Hc|]. split.
    { intros l. rewrite Hc. unfold insert at 1, fn_insert.
      destruct (decide (Individual.children (objs h p) = l)) as [->|]; done. }
    split; [intros y Hy; by rewrite fn_lookup_insert_ne|].
    split; [discriminate|]. intros _.
    unfold father_of, mother_of. simpl. by rewrite fn_lookup_insert.
Qed.

Lemma add_parent_child_relationship_children h x p sex y :
  sex = "M" ∨ sex = "F" →
  children_of (add_parent_child_relationship h x p sex) y
  = if decide (Individual.children (objs h p) = Individual.children (objs h y))
    then children_of h y ++ [x] else children_of h y.
Proof.
  intros Hsex.
  destruct (add_parent_child_relationship_effect h x p sex Hsex)
    as (_ & _ & Hc & Hl & _).
  unfold children_of. by rewrite Hc, Hl.
Qed.

Lemma add_parent_child_relationship_appends h x p sex :
  sex = "M" ∨ sex = "F" →
  children_of (add_parent_child_relationship h x p sex) p = children_of h p ++ [x].
Proof.
  intros Hsex. rewrite add_parent_child_relationship_children by done.
  by rewrite decide_True.
Qed.

Lemma add_parent_child_relationship_keeps h x p sex y z :
  z ∈ children_of h y →
  z ∈ children_of (add_parent_child_relationship h x p sex) y.
Proof.
  intros Hz.
  destruct (decide (sex = "M")) as [HM|HM];
    [|destruct (decide (sex = "F")) as [HF|HF]].
  3: by rewrite add_parent_child_relationship_other_tag.
  all: rewrite add_parent_child_relationship_children by auto;
    case_decide; [apply elem_of_app; by left | done].
Qed.

Lemma add_parent_child_relationship_parent h x p sex y q :
  parent_of (add_parent_child_relationship h x p sex) y q →
  parent_of h y q ∨ (y = x ∧ q = p ∧ (sex = "M" ∨ sex = "F")).
Proof.
  destruct (decide (sex = "M")) as [HM|HM];
    [|destruct (decide (sex = "F")) as [HF|HF]].
  3: { rewrite add_parent_child_relationship_other_tag by done. by left. }
  all: destruct (add_parent_child_relationship_effect h x p sex)
         as (_ & _ & _ & _ & Ho & HMale & HFemale); [by auto|].
  all: destruct (decide (y = x)) as [->|Hne];
         [| unfold parent_of, mother_of, father_of; rewrite Ho by done; by left].
  - destruct (HMale HM) as [Hf Hm]. unfold parent_of. rewrite Hf, Hm.
    intros [H|H]; [left; by left | injection H as <-; right; auto].
  - destruct (HFemale HF) as [Hm Hf]. unfold parent_of. rewrite Hf, Hm.
    intros [H|H]; [injection H as <-; right; auto | left; by right].
Qed.

(** A call never breaks the symmetry of the links. *)
Lemma add_parent_child_relationship_linked h x p sex :
  linked h → linked (add_parent_child_relationship h x p sex).
Proof.
  intros Hl y q Hp.
  apply add_parent_child_relationship_parent in Hp as [Hp|(-> & -> & Hsex)].
  - apply add_parent_child_relationship_keeps. by apply Hl.
  - rewrite add_parent_child_relationship_appends by done.
    apply elem_of_app. right. left.
Qed.

Lemma built_well_built h : built h → well_built h.
Proof.
  induction 1 as [|h l _ (Hp & Hc & Hl)
                  |h id_number sex affected children _ (Hp & Hc & Hl) Hch
                  |h x p sex _ (Hp & Hc & Hl) Hx Hpar].
  - split; [|split].
    + intros x p [H|H]; discriminate H.
    + simpl. lia.
    + intros x p [H|H]; discriminate H.
  - split; [exact Hp|]. split.
    + simpl. intros x Hx. specialize (Hc x Hx). lia.
    + intros x p Hxp. unfold children_of. simpl.
      rewrite fn_lookup_insert_ne.
      * by apply Hl.
      * specialize (Hc p (Hp x p Hxp)). lia.
  - assert (Hother : ∀ x, x ≠ next_obj h →
              objs (__init__ h id_number sex affected None None children).1 x
              = objs h x).
    { intros x Hx. destruct children; simpl; by rewrite fn_lookup_insert_ne. }
    assert (Hnew : ∀ x p,
              parent_of (__init__ h id_number sex affected None None children).1 x p →
              x ≠ next_obj h ∧ parent_of h x p).
    { intros x p Hxp. destruct (decide (x = next_obj h)) as [->|Hne].
      - exfalso. unfold parent_of, mother_of, father_of in Hxp.
        destruct children; simpl in Hxp; rewrite fn_lookup_insert in Hxp;
          simpl in Hxp; destruct Hxp; discriminate.
      - split; [done|]. unfold parent_of, mother_of, father_of in *.
        by rewrite Hother in Hxp. }
    split; [|split].
    + intros x p Hxp. apply Hnew in Hxp as [_ Hxp]. apply Hp in Hxp.
      destruct children; simpl; lia.
    + intros x Hx. destruct (decide (x = next_obj h)) as [->|Hne].
      * destruct children as [l|]; simpl; rewrite fn_lookup_insert; simpl.
        -- by apply Hch.
        -- lia.
      * rewrite Hother by done.
        assert (x < next_obj h) as Hlt by (destruct children; simpl in Hx; lia).
        specialize (Hc x Hlt). destruct children; simpl; lia.
    + intros x p Hxp. apply Hnew in Hxp as [Hne Hxp].
      pose proof (Hp x p Hxp) as Hlt. specialize (Hc p Hlt).
      unfold children_of. rewrite Hother by lia.
      destruct children; simpl.
      * by apply Hl.
      * rewrite fn_lookup_insert_ne by lia. by apply Hl.
  - destruct (decide (sex = "M")) as [HM|HM];
      [|destruct (decide (sex = "F")) as [HF|HF]].
    3: { rewrite add_parent_child_relationship_other_tag by done. done. }
    all: destruct (add_parent_child_relationship_effect h x p sex)
           as (Hno & Hnl & Hcr & _); [by auto|].
    all: split; [|split; [|by apply add_parent_child_relationship_linked]].
    all: try (intros y Hy; rewrite Hno in Hy; rewrite Hcr, Hnl; by apply Hc).
    all: intros y q Hyq; rewrite Hno;
      apply add_parent_child_relationship_parent in Hyq as [Hyq|(_ & -> & _)];
      [by apply (Hp y q) | done].
Qed.

(** C7, amended.  In every store built by constructing individuals without
    [mother] and [father] arguments and linking them with
    [add_parent_child_relationship], each recorded mother or father lists
    the individual among its children; and a call
    [x.add_parent_child_relationship(p, sex)] with a recognised tag records
    [p] on [x] and appends [x] to the children of [p] exactly once. *)
Theorem parent_child_symmetry (h : Heap) :
  built h →
  (∀ x p, mother_of h x = Some p ∨ father_of h x = Some p → x ∈ children_of h p)
  ∧ ∀ x p sex,
      let h' := add_parent_child_relationship h x p sex in
      (sex = "M" → father_of h' x = Some p
                   ∧ children_of h' p = children_of h p ++ [x])
      ∧ (sex = "F" → mother_of h' x = Some p
                     ∧ children_of h' p = children_of h p ++ [x]).
Proof.
  intros Hb. split.
  - apply built_well_built in Hb as (_ & _ & Hl). exact Hl.
  - intros x p sex h'. subst h'. split; intros Hsex.
    + destruct (add_parent_child_relationship_effect h x p sex)
        as (_ & _ & _ & _ & _ & HMale & _); [by left|].
      split; [by apply HMale | apply add_parent_child_relationship_appends; by left].
    + destruct (add_parent_child_relationship_effect h x p sex)
        as (_ & _ & _ & _ & _ & _ & HFemale); [by right|].
      split; [by apply HFemale | apply add_parent_child_relationship_appends; by right].
Qed.

Lemma parent_child_symmetry_witness :
  (∀ x p, mother_of linked_pair x = Some p ∨ father_of linked_pair x = Some p →
          x ∈ children_of linked_pair p)
  ∧ ∀ x p sex,
      let h' := add_parent_child_relationship linked_pair x p sex in
      (sex = "M" → father_of h' x = Some p
                   ∧ children_of h' p = children_of linked_pair p ++ [x])
      ∧ (sex = "F" → mother_of h' x = Some p
                     ∧ children_of h' p = children_of linked_pair p ++ [x]).
Proof.
  apply (parent_child_symmetry linked_pair).
  unfold linked_pair, individual.
  apply built_add; [| simpl; lia | simpl; lia].
  repeat (apply built_init; [| discriminate]).
  apply built_empty.
Defined.


(** * Further properties of the code *)

(** ** Generations *)

(** A recorded parent's generation, or 0 for a missing parent. *)
Lemma get_generation_step fuel h x :
  get_generation (S fuel) h x
  = match mother_of h x, father_of h x with
    | None, None => Some 0
    | mo, fa =>
        mother_generation ← match mo with
                            | Some mo => get_generation fuel h mo
                            | None => Some 0
                            end;
        father_generation ← match fa with
                            | Some fa => get_generation fuel h fa
                            | None => Some 0
                            end;
        Some (mother_generation `max` father_generation + 1)
    end.
Proof. reflexivity. Qed.

Lemma get_generation_fuel fuel h x g :
  get_generation fuel h x = Some g →
  g < fuel ∧ ∀ fuel', g < fuel' → get_generation fuel' h x = Some g.
Proof.
  revert x g. induction fuel as [|fuel IH]; intros x g; [discriminate|].
  rewrite get_generation_step.
  assert (Hopt : ∀ o mg,
    match o with Some p => get_generation fuel h p | None => Some 0 end = Some mg →
    match o with Some _ => mg < fuel | None => mg = 0 end ∧ ∀ fuel', mg < fuel' →
      match o with Some p => get_generation fuel' h p | None => Some 0 end = Some mg).
  { intros [p|] mg H.
    - apply IH in H as [Hlt Hm]. done.
    - injection H as <-. done. }
  destruct (mother_of h x) as [mo|] eqn:Hmo; destruct (father_of h x) as [fa|] eqn:Hfa.
  4: { intros E; injection E as <-. split; [lia|].
       intros [|fuel'] Hf; [lia|]. rewrite get_generation_step, Hmo, Hfa. done. }
  all: intros H; apply bind_Some in H as (mg & Hmg & H);
    apply bind_Some in H as (fg & Hfg & H); injection H as <-.
  all: apply (Hopt (Some _)) in Hmg as [Hmlt Hm] || apply (Hopt None) in Hmg as [Hmlt Hm].
  all: apply (Hopt (Some _)) in Hfg as [Hflt Hf] || apply (Hopt None) in Hfg as [Hflt Hf].
  all: split; [simpl in *; lia|].
  all: intros [|fuel'] Hlt; [lia|]; rewrite get_generation_step, Hmo, Hfa.
  all: simpl in Hm, Hf, Hmlt, Hflt; simpl; rewrite ?Hm, ?Hf by lia; simpl;
    subst; done.
Qed.

Lemma get_generation_parent fuel h x g p :
  get_generation fuel h x = Some g → parent_of h x p →
  ∃ gp, get_generation fuel h p = Some gp ∧ gp < g.
Proof.
  destruct fuel as [|fuel]; [discriminate|].
  rewrite get_generation_step. intros H Hp.
  assert (Hlift : ∀ q gq, get_generation fuel h q = Some gq →
                          get_generation (S fuel) h q = Some gq).
  { intros q gq Hq. apply get_generation_fuel in Hq as [Hlt Hq]. apply Hq. lia. }
  destruct (mother_of h x) as [mo|] eqn:Hmo; destruct (father_of h x) as [fa|] eqn:Hfa.
  4: { destruct Hp as [Hp|Hp]; congruence. }
  all: apply bind_Some in H as (mg & Hmg & H);
    apply bind_Some in H as (fg & Hfg & H); injection H as <-.
  all: destruct Hp as [Hp|Hp]; rewrite ?Hmo, ?Hfa in Hp; try discriminate Hp;
    injection Hp as <-.
  all: (exists mg; split; [by apply Hlift | lia])
       || (exists fg; split; [by apply Hlift | lia]).
Qed.

Lemma get_generation_attained fuel h x g :
  get_generation fuel h x = Some g → 0 < g →
  ∃ p, parent_of h x p ∧ get_generation fuel h p = Some (g - 1).
Proof.
  destruct fuel as [|fuel]; [discriminate|].
  rewrite get_generation_step. intros H Hpos.
  assert (Hlift : ∀ q gq, get_generation fuel h q = Some gq →
                          get_generation (S fuel) h q = Some gq).
  { intros q gq Hq. apply get_generation_fuel in Hq as [Hlt Hq]. apply Hq. lia. }
  unfold parent_of.
  destruct (mother_of h x) as [mo|] eqn:Hmo; destruct (father_of h x) as [fa|] eqn:Hfa.
  4: { injection H as <-. lia. }
  all: apply bind_Some in H as (mg & Hmg & H);
    apply bind_Some in H as (fg & Hfg & H); injection H as <-.
  - destruct (decide (fg ≤ mg)%nat).
    + exists mo. split; [by left|]. replace (mg `max` fg + 1 - 1) with mg by lia.
      by apply Hlift.
    + exists fa. split; [by right|]. replace (mg `max` fg + 1 - 1) with fg by lia.
      by apply Hlift.
  - injection Hfg as <-. exists mo. split; [by left|].
    replace (mg `max` 0 + 1 - 1) with mg by lia. by apply Hlift.
  - injection Hmg as <-. exists fa. split; [by right|].
    replace (0 `max` fg + 1 - 1) with fg by lia. by apply Hlift.
Qed.

Lemma get_generation_founder fuel h x g :
  get_generation fuel h x = Some g →
  g = 0 ↔ mother_of h x = None ∧ father_of h x = None.
Proof.
  destruct fuel as [|fuel]; [discriminate|].
  rewrite get_generation_step.
  destruct (mother_of h x) as [mo|]; destruct (father_of h x) as [fa|].
  4: { intros E; injection E as <-. done. }
  all: intros H; apply bind_Some in H as (mg & Hmg & H);
    apply bind_Some in H as (fg & Hfg & H); injection H as <-.
  all: split; [lia | intros [? ?]; discriminate].
Qed.

(** X1. The recursion of [get_generation] is exactly one level deeper than
    the generation it returns: a call that returns [g] needed more than [g]
    levels, and with any deeper bound it returns the same [g]. *)
Theorem get_generation_depth (fuel : nat) (h : Heap) (x : loc) (g : nat) :
  get_generation fuel h x = Some g →
  g < fuel ∧ (∀ fuel', g < fuel' → get_generation fuel' h x = Some g)
  ∧ (∀ fuel', (fuel' ≤ g)%nat → get_generation fuel' h x = None).
Proof.
  intros H. pose proof (get_generation_fuel fuel h x g H) as [Hlt Hm].
  split; [done|]. split; [done|].
  intros fuel' Hle. destruct (get_generation fuel' h x) as [g'|] eqn:E; [|done].
  pose proof (get_generation_fuel fuel' h x g' E) as [Hlt' Hm'].
  assert (get_generation (S (g `max` g')) h x = Some g) as E1 by (apply Hm; lia).
  assert (get_generation (S (g `max` g')) h x = Some g') as E2 by (apply Hm'; lia).
  rewrite E1 in E2. injection E2 as <-. lia.
Qed.

Lemma get_generation_depth_witness :
  3 < 5 ∧ (∀ fuel', 3 < fuel' → get_generation fuel' pedigree9.1 10 = Some 3)
  ∧ (∀ fuel', (fuel' ≤ 3)%nat → get_generation fuel' pedigree9.1 10 = None).
Proof. apply (get_generation_depth 5 pedigree9.1 10 3). reflexivity. Defined.

(** X2. When [get_generation] returns for an individual, it returns for
    each recorded parent a strictly smaller number; the result is 0 exactly
    for an individual with neither parent recorded, and otherwise it is one
    more than the generation of some recorded parent, so it is
    [1 + max] over the recorded parents only. *)
Theorem get_generation_parents (fuel : nat) (h : Heap) (x : loc) (g : nat) :
  get_generation fuel h x = Some g →
  (g = 0 ↔ mother_of h x = None ∧ father_of h x = None)
  ∧ (∀ p, parent_of h x p → ∃ gp, get_generation fuel h p = Some gp ∧ gp < g)
  ∧ (0 < g → ∃ p, parent_of h x p ∧ get_generation fuel h p = Some (g - 1)).
Proof.
  intros H. split; [by apply (get_generation_founder fuel)|].
  split; [intros p; by apply get_generation_parent|].
  by apply get_generation_attained.
Qed.

Lemma get_generation_parents_witness :
  (3 = 0 ↔ mother_of pedigree9.1 10 = None ∧ father_of pedigree9.1 10 = None)
  ∧ (∀ p, parent_of pedigree9.1 10 p →
          ∃ gp, get_generation 5 pedigree9.1 p = Some gp ∧ gp < 3)
  ∧ (0 < 3 → ∃ p, parent_of pedigree9.1 10 p
                  ∧ get_generation 5 pedigree9.1 p = Some (3 - 1)).
Proof. apply (get_generation_parents 5 pedigree9.1 10 3). reflexivity. Defined.

(** Along any chain of recorded parents the generation strictly drops. *)
Lemma get_generation_ancestor fuel h x y g :
  tc (parent_of h) x y → get_generation fuel h x = Some g →
  ∃ gy, get_generation fuel h y = Some gy ∧ gy < g.
Proof.
  intros Hxy. revert g. induction Hxy as [x y Hp|x y z Hp _ IH]; intros g Hg.
  - by apply (get_generation_parent fuel h x).
  - destruct (get_generation_parent fuel h x g y Hg Hp) as (gy & Hy & Hlt).
    destruct (IH gy Hy) as (gz & Hz & Hlt'). exists gz. split; [done | lia].
Qed.

(** X3. On a cyclic parent graph [get_generation] never returns: for an
    individual that is its own ancestor the recursion exceeds every depth
    bound.  Making an individual its own parent is enough. *)
Theorem get_generation_cycle (h : Heap) (x : loc) :
  tc (parent_of h) x x → ∀ fuel, get_generation fuel h x = None.
Proof.
  intros Hc fuel. destruct (get_generation fuel h x) as [g|] eqn:E; [|done].
  destruct (get_generation_ancestor fuel h x x g Hc E) as (g' & E' & Hlt).
  rewrite E in E'. injection E' as <-. lia.
Qed.

Lemma get_generation_cycle_witness :
  get_generation 100 (add_parent_child_relationship pedigree9.1 0 0 "M") 0 = None.
Proof.
  apply (get_generation_cycle (add_parent_child_relationship pedigree9.1 0 0 "M") 0).
  apply tc_once. right. reflexivity.
Defined.

Lemma get_generation_ranked (rank : loc → nat) h :
  (∀ x p, parent_of h x p → rank p < rank x) →
  ∀ n x, rank x < n → ∃ g, get_generation n h x = Some g.
Proof.
  intros Hr. induction n as [|n IH]; intros x Hx; [lia|].
  rewrite get_generation_step.
  destruct (mother_of h x) as [mo|] eqn:Hmo; destruct (father_of h x) as [fa|] eqn:Hfa.
  4: by eexists.
  all: try (destruct (IH mo) as (mg & ->); [specialize (Hr x mo (or_introl Hmo)); lia|]).
  all: try (destruct (IH fa) as (fg & ->); [specialize (Hr x fa (or_intror Hfa)); lia|]).
  all: simpl; by eexists.
Qed.

(** X4. [get_generation] returns whenever the recorded links are
    well-founded: if some numbering of the individuals decreases from every
    child to each recorded parent, the call returns for every individual,
    with a generation no larger than the individual's number. *)
Theorem get_generation_returns (rank : loc → nat) (h : Heap) (x : loc) :
  (∀ y p, parent_of h y p → rank p < rank y) →
  ∃ g, (g ≤ rank x)%nat ∧ ∀ fuel, g < fuel → get_generation fuel h x = Some g.
Proof.
  intros Hr.
  destruct (get_generation_ranked rank h Hr (S (rank x)) x) as (g & Hg); [lia|].
  apply get_generation_fuel in Hg as [Hlt Hm]. exists g. split; [lia | done].
Qed.

Lemma pedigree9_parents_first x p : parent_of pedigree9.1 x p → p < x.
Proof.
  intros [H|H];
    do 12 (try destruct x as [|x]); vm_compute in H;
    try discriminate H; injection H as <-; lia.
Qed.

Lemma get_generation_returns_witness :
  ∃ g, (g ≤ 10)%nat ∧ ∀ fuel, g < fuel → get_generation fuel pedigree9.1 10 = Some g.
Proof.
  apply (get_generation_returns (λ x, x) pedigree9.1 10).
  exact pedigree9_parents_first.
Defined.

(** ** Ancestors *)

Lemma ancestors_dfs_step fuel h x :
  ancestors_dfs (S fuel) h x
  = ma ← match mother_of h x with
         | Some mo => (mo ::.) <$> ancestors_dfs fuel h mo
         | None => Some []
         end;
    fa ← match father_of h x with
         | Some fa => (fa ::.) <$> ancestors_dfs fuel h fa
         | None => Some []
         end;
    Some (ma ++ fa).
Proof. reflexivity. Qed.

(** The sequence depends on the individuals only, not on the list objects. *)
Lemma ancestors_dfs_ext fuel h h' x :
  (∀ y, objs h' y = objs h y) → ancestors_dfs fuel h' x = ancestors_dfs fuel h x.
Proof.
  intros Ho. revert x. induction fuel as [|fuel IH]; intros x; [done|].
  rewrite !ancestors_dfs_step. unfold mother_of, father_of. rewrite Ho.
  destruct (Individual.mother (objs h x)) as [mo|];
    destruct (Individual.father (objs h x)) as [fa|]; by rewrite ?IH.
Qed.

Lemma extended_by_append h h' l p A :
  extended_by (append h l p) h' l A → extended_by h h' l (p :: A).
Proof.
  intros (Ho & Hn & Hnl & Hl). split; [done|]. split; [done|]. split; [done|].
  intros l'. rewrite Hl. simpl. unfold insert, fn_insert.
  destruct (decide (l = l')) as [->|Hne].
  - rewrite decide_True by done. by rewrite <- app_assoc.
  - rewrite ?decide_False by done. done.
Qed.

Lemma extended_by_trans h h1 h2 l A B :
  extended_by h h1 l A → extended_by h1 h2 l B → extended_by h h2 l (A ++ B).
Proof.
  intros (Ho & Hn & Hnl & Hl) (Ho' & Hn' & Hnl' & Hl').
  split; [intros y; by rewrite Ho', Ho|].
  split; [congruence|]. split; [congruence|].
  intros l'. rewrite Hl', !Hl.
  destruct (decide (l = l')) as [->|Hne].
  - rewrite decide_True by done. by rewrite app_assoc.
  - done.
Qed.

Lemma extended_by_nil h l : extended_by h h l [].
Proof.
  split; [done|]. split; [done|]. split; [done|].
  intros l'. case_decide; [subst; by rewrite app_nil_r | done].
Qed.

Lemma get_ancestors_into_spec fuel h x l :
  match ancestors_dfs fuel h x with
  | Some A => ∃ h', get_ancestors_into fuel h x l = Some h' ∧ extended_by h h' l A
  | None => get_ancestors_into fuel h x l = None
  end.
Proof.
  revert h x. induction fuel as [|fuel IH]; intros h x; [done|].
  assert (Hpar : ∀ h0 (o : option loc),
    match match o with
          | Some p => (p ::.) <$> ancestors_dfs fuel h0 p
          | None => Some []
          end with
    | Some A => ∃ h', match o with
                      | Some p => get_ancestors_into fuel (append h0 l p) p l
                      | None => Some h0
                      end = Some h' ∧ extended_by h0 h' l A
    | None => match o with
              | Some p => get_ancestors_into fuel (append h0 l p) p l
              | None => Some h0
              end = None
    end).
  { intros h0 [p|].
    - specialize (IH (append h0 l p) p).
      rewrite (ancestors_dfs_ext fuel h0 (append h0 l p)) in IH by done.
      destruct (ancestors_dfs fuel h0 p) as [A|]; simpl; [|done].
      destruct IH as (h' & -> & He). exists h'. split; [done|].
      by apply extended_by_append.
    - exists h0. split; [done | apply extended_by_nil]. }
  rewrite ancestors_dfs_step. simpl.
  pose proof (Hpar h (mother_of h x)) as Hm.
  destruct (match mother_of h x with
            | Some mo => (mo ::.) <$> ancestors_dfs fuel h mo
            | None => Some []
            end) as [ma|]; simpl.
  2: { by rewrite Hm. }
  destruct Hm as (h1 & -> & He1). simpl.
  assert (Hf1 : father_of h1 x = father_of h x).
  { unfold father_of. destruct He1 as (Ho & _). by rewrite Ho. }
  rewrite Hf1. pose proof (Hpar h1 (father_of h x)) as Hf.
  assert (Hext : ∀ p, ancestors_dfs fuel h1 p = ancestors_dfs fuel h p).
  { intros p. apply ancestors_dfs_ext. by destruct He1 as (Ho & _). }
  destruct (father_of h x) as [fa|]; simpl in *.
  - rewrite Hext in Hf.
    destruct (ancestors_dfs fuel h fa) as [A|]; simpl in *; [|done].
    destruct Hf as (h2 & -> & He2). exists h2. split; [done|].
    by apply (extended_by_trans h h1 h2).
  - destruct Hf as (h2 & E & He2). injection E as <-.
    exists h1. by rewrite app_nil_r.
Qed.

Lemma get_ancestors_spec fuel h x (ancestors : option lref) :
  let '(h0, l) := match ancestors with
                  | Some l => (h, l)
                  | None => new_list h []
                  end in
  match ancestors_dfs fuel h x with
  | Some A => ∃ h', get_ancestors fuel h x ancestors = Some (h', l)
                    ∧ extended_by h0 h' l A
  | None => get_ancestors fuel h x ancestors = None
  end.
Proof.
  unfold get_ancestors. destruct ancestors as [l|]; simpl.
  - pose proof (get_ancestors_into_spec fuel h x l) as H.
    destruct (ancestors_dfs fuel h x) as [A|].
    + destruct H as (h' & -> & He). by exists h'.
    + by rewrite H.
  - pose proof (get_ancestors_into_spec fuel (new_list h []).1 x (next_list h)) as H.
    rewrite (ancestors_dfs_ext fuel h (new_list h []).1) in H by done.
    destruct (ancestors_dfs fuel h x) as [A|].
    + destruct H as (h' & H & He). simpl in H. rewrite H. by exists h'.
    + simpl in H. by rewrite H.
Qed.

Lemma ancestors_dfs_sound fuel h x A p :
  ancestors_dfs fuel h x = Some A → p ∈ A → tc (parent_of h) x p.
Proof.
  revert x A. induction fuel as [|fuel IH]; intros x A; [discriminate|].
  rewrite ancestors_dfs_step. intros H Hp.
  apply bind_Some in H as (ma & Hma & H). apply bind_Some in H as (fa & Hfa & H).
  injection H as <-.
  assert (Hpar : ∀ o B,
    match o with Some q => (q ::.) <$> ancestors_dfs fuel h q | None => Some [] end
      = Some B →
    p ∈ B → ∃ q, o = Some q ∧ (p = q ∨ tc (parent_of h) q p)).
  { intros [q|] B HB HpB.
    - apply fmap_Some in HB as (Aq & HAq & ->). exists q. split; [done|].
      apply elem_of_cons in HpB as [->|HpB]; [by left | right; by apply (IH q Aq)].
    - injection HB as <-. inversion HpB. }
  apply elem_of_app in Hp as [Hp|Hp].
  - destruct (Hpar _ _ Hma Hp) as (q & Hq & [->|Hqp]).
    + apply tc_once. by left.
    + eapply tc_l; [|exact Hqp]. by left.
  - destruct (Hpar _ _ Hfa Hp) as (q & Hq & [->|Hqp]).
    + apply tc_once. by right.
    + eapply tc_l; [|exact Hqp]. by right.
Qed.

Lemma ancestors_dfs_parent fuel h x A q :
  ancestors_dfs (S fuel) h x = Some A → parent_of h x q →
  ∃ B, ancestors_dfs fuel h q = Some B ∧ q ∈ A ∧ ∀ p, p ∈ B → p ∈ A.
Proof.
  rewrite ancestors_dfs_step. intros H Hq.
  apply bind_Some in H as (ma & Hma & H). apply bind_Some in H as (fa & Hfa & H).
  injection H as <-.
  destruct Hq as [Hq|Hq]; rewrite Hq in *.
  - apply fmap_Some in Hma as (B & HB & ->). exists B. split; [done|].
    split; [apply elem_of_app; left; left|].
    intros p Hp. apply elem_of_app. left. by right.
  - apply fmap_Some in Hfa as (B & HB & ->). exists B. split; [done|].
    split; [apply elem_of_app; right; left|].
    intros p Hp. apply elem_of_app. right. by right.
Qed.

Lemma ancestors_dfs_complete h x p :
  tc (parent_of h) x p → ∀ fuel A, ancestors_dfs fuel h x = Some A → p ∈ A.
Proof.
  induction 1 as [x p Hp|x y p Hp _ IH]; intros [|fuel] A HA; try discriminate.
  - by destruct (ancestors_dfs_parent fuel h x A p HA Hp) as (B & _ & Hin & _).
  - destruct (ancestors_dfs_parent fuel h x A y HA Hp) as (B & HB & _ & Hsub).
    apply Hsub. by apply (IH fuel).
Qed.

(** X5. [get_ancestors()] called without a list returns a new list object
    holding exactly the individuals reachable by following mother and
    father links, and leaves every individual and every other list as it
    was. *)
Theorem get_ancestors_collects (fuel : nat) (h h' : Heap) (x : loc) (l : lref) :
  get_ancestors fuel h x None = Some (h', l) →
  l = next_list h
  ∧ (∀ y, objs h' y = objs h y)
  ∧ (∀ l', l' ≠ l → lists h' l' = lists h l')
  ∧ ∀ p, p ∈ lists h' l ↔ tc (parent_of h) x p.
Proof.
  intros H. pose proof (get_ancestors_spec fuel h x None) as S. simpl in S.
  destruct (ancestors_dfs fuel h x) as [A|] eqn:EA; [|congruence].
  destruct S as (h'' & E & Ho & _ & _ & Hl). rewrite H in E.
  injection E as -> ->. split; [done|]. split; [done|]. split.
  - intros l' Hne. rewrite Hl. rewrite decide_False by done.
    simpl. by rewrite fn_lookup_insert_ne.
  - intros p. rewrite Hl. rewrite decide_True by done. simpl.
    rewrite fn_lookup_insert. simpl. split.
    + by apply (ancestors_dfs_sound fuel).
    + intros Hp. by apply (ancestors_dfs_complete h x p Hp fuel).
Qed.

Lemma get_ancestors_collects_witness :
  3 = next_list one_parent.1
  ∧ (∀ y, objs (append (append (new_list one_parent.1 []).1 3 1) 3 0) y
          = objs one_parent.1 y)
  ∧ (∀ l', l' ≠ 3 →
           lists (append (append (new_list one_parent.1 []).1 3 1) 3 0) l'
           = lists one_parent.1 l')
  ∧ ∀ p, p ∈ lists (append (append (new_list one_parent.1 []).1 3 1) 3 0) 3
         ↔ tc (parent_of one_parent.1) 2 p.
Proof.
  apply (get_ancestors_collects 3 one_parent.1
           (append (append (new_list one_parent.1 []).1 3 1) 3 0) 2 3).
  vm_compute. reflexivity.
Defined.

(** X6. [get_ancestors(ancestors)] called with a list object appends to
    that very object the sequence a call without argument would return,
    after what the list already held; no other list and no individual
    changes.  If the list is some individual's [children], that
    individual's children are extended with the ancestors. *)
Theorem get_ancestors_extends (fuel : nat) (h h1 : Heap) (x : loc) (l0 l1 : lref) :
  get_ancestors fuel h x None = Some (h1, l1) →
  ∃ h2, get_ancestors fuel h x (Some l0) = Some (h2, l0)
        ∧ lists h2 l0 = lists h l0 ++ lists h1 l1
        ∧ (∀ l', l' ≠ l0 → lists h2 l' = lists h l')
        ∧ (∀ y, objs h2 y = objs h y)
        ∧ (∀ p, Individual.children (objs h p) = l0 →
                children_of h2 p = children_of h p ++ lists h1 l1).
Proof.
  intros H.
  pose proof (get_ancestors_spec fuel h x None) as S1.
  pose proof (get_ancestors_spec fuel h x (Some l0)) as S2. simpl in S1, S2.
  destruct (ancestors_dfs fuel h x) as [A|]; [|congruence].
  destruct S1 as (h' & E & _ & _ & _ & Hl1). rewrite H in E. injection E as -> ->.
  destruct S2 as (h2 & E2 & Ho2 & _ & _ & Hl2).
  assert (HA : lists h' (next_list h) = A).
  { rewrite Hl1. rewrite decide_True by done. simpl. by rewrite fn_lookup_insert. }
  assert (H0 : lists h2 l0 = lists h l0 ++ lists h' (next_list h)).
  { rewrite Hl2, HA. by rewrite decide_True. }
  exists h2. split; [done|]. split; [done|]. split.
  - intros l' Hne. rewrite Hl2. by rewrite decide_False.
  - split; [done|]. intros p Hp. unfold children_of. by rewrite Ho2, Hp.
Qed.

Lemma get_ancestors_extends_witness :
  ∃ h2, get_ancestors 3 one_parent.1 2 (Some 0) = Some (h2, 0)
        ∧ lists h2 0
          = lists one_parent.1 0
            ++ lists (append (append (new_list one_parent.1 []).1 3 1) 3 0) 3
        ∧ (∀ l', l' ≠ 0 → lists h2 l' = lists one_parent.1 l')
        ∧ (∀ y, objs h2 y = objs one_parent.1 y)
        ∧ (∀ p, Individual.children (objs one_parent.1 p) = 0 →
                children_of h2 p
                = children_of one_parent.1 p
                  ++ lists (append (append (new_list one_parent.1 []).1 3 1) 3 0) 3).
Proof.
  apply (get_ancestors_extends 3 one_parent.1
           (append (append (new_list one_parent.1 []).1 3 1) 3 0) 2 0 3).
  vm_compute. reflexivity.
Defined.

Lemma ancestors_dfs_generation fuel h x A :
  ancestors_dfs fuel h x = Some A →
  ∃ g, get_generation fuel h x = Some g ∧ (g ≤ length A)%nat ∧ (g = 0 ↔ A = []).
Proof.
  revert x A. induction fuel as [|fuel IH]; intros x A; [discriminate|].
  rewrite ancestors_dfs_step, get_generation_step. intros H.
  apply bind_Some in H as (ma & Hma & H). apply bind_Some in H as (fa & Hfa & H).
  injection H as <-.
  assert (Hpar : ∀ o B,
    match o with Some q => (q ::.) <$> ancestors_dfs fuel h q | None => Some [] end
      = Some B →
    ∃ g, match o with Some q => get_generation fuel h q | None => Some 0 end = Some g
         ∧ match o with Some _ => g < length B | None => g = 0 ∧ B = [] end).
  { intros [q|] B HB.
    - apply fmap_Some in HB as (Aq & HAq & ->).
      destruct (IH q Aq HAq) as (g & Hg & Hle & _). exists g. simpl. split; [done | lia].
    - injection HB as <-. by exists 0. }
  destruct (Hpar _ _ Hma) as (mg & Hmg & Hm).
  destruct (Hpar _ _ Hfa) as (fg & Hfg & Hf).
  destruct (mother_of h x) as [mo|]; destruct (father_of h x) as [fa'|].
  4: { destruct Hm as [_ ->]. destruct Hf as [_ ->]. by exists 0. }
  all: rewrite Hmg, Hfg; simpl; eexists; split; [done|]; rewrite length_app.
  all: split; [lia|]; split; [lia|].
  all: intros E; apply app_eq_nil in E as [-> ->]; simpl in *; lia.
Qed.

Lemma get_generation_ancestors fuel h x g :
  get_generation fuel h x = Some g → ∃ A, ancestors_dfs fuel h x = Some A.
Proof.
  revert x g. induction fuel as [|fuel IH]; intros x g; [discriminate|].
  rewrite ancestors_dfs_step, get_generation_step.
  destruct (mother_of h x) as [mo|]; destruct (father_of h x) as [fa|].
  4: { intros _. by eexists. }
  all: intros H; apply bind_Some in H as (mg & Hmg & H);
    apply bind_Some in H as (fg & Hfg & H).
  all: try (destruct (IH _ _ Hmg) as (Am & ->)).
  all: try (destruct (IH _ _ Hfg) as (Af & ->)).
  all: simpl; by eexists.
Qed.

(** X7. With the same depth bound, [get_ancestors] returns exactly when
    [get_generation] does; the generation is then at most the number of
    entries of the ancestor list, and it is 0 exactly when the list is
    empty. *)
Theorem get_ancestors_generation (fuel : nat) (h : Heap) (x : loc) :
  (is_Some (get_ancestors fuel h x None) ↔ is_Some (get_generation fuel h x))
  ∧ ∀ h' l g, get_ancestors fuel h x None = Some (h', l) →
              get_generation fuel h x = Some g →
              (g ≤ length (lists h' l))%nat ∧ (g = 0 ↔ lists h' l = []).
Proof.
  pose proof (get_ancestors_spec fuel h x None) as S. simpl in S.
  destruct (ancestors_dfs fuel h x) as [A|] eqn:EA.
  - destruct S as (h'' & E & _ & _ & _ & Hl).
    assert (HA : lists h'' (next_list h) = A).
    { rewrite Hl. rewrite decide_True by done. simpl. by rewrite fn_lookup_insert. }
    destruct (ancestors_dfs_generation fuel h x A EA) as (g0 & Hg0 & Hle & H0).
    split.
    + rewrite E, Hg0. split; intros _; by eexists.
    + intros h' l g E' Hg. rewrite E in E'. injection E' as <- <-.
      rewrite Hg0 in Hg. injection Hg as <-. by rewrite HA.
  - split.
    + rewrite S. split; [intros [? ?]; discriminate|].
      intros [g Hg]. apply get_generation_ancestors in Hg as (A & HA). congruence.
    + intros h' l g E'. congruence.
Qed.

Lemma get_ancestors_list fuel h x h' l :
  get_ancestors fuel h x None = Some (h', l) →
  ancestors_dfs fuel h x = Some (lists h' l).
Proof.
  intros H. pose proof (get_ancestors_spec fuel h x None) as S. simpl in S.
  destruct (ancestors_dfs fuel h x) as [A|]; [|congruence].
  destruct S as (h'' & E & _ & _ & _ & Hl). rewrite H in E. injection E as -> ->.
  rewrite Hl. rewrite decide_True by done. simpl. by rewrite fn_lookup_insert.
Qed.

Lemma ancestors_dfs_list fuel h x A :
  ancestors_dfs fuel h x = Some A →
  ∃ h' l, get_ancestors fuel h x None = Some (h', l) ∧ lists h' l = A.
Proof.
  intros HA. pose proof (get_ancestors_spec fuel h x None) as S. simpl in S.
  rewrite HA in S. destruct S as (h' & E & _ & _ & _ & Hl).
  exists h', (next_list h). split; [done|].
  rewrite Hl. rewrite decide_True by done. simpl. by rewrite fn_lookup_insert.
Qed.

(** X8. For an individual with both parents recorded the list returned by
    [get_ancestors()] is the mother, then the list returned for the mother,
    then the father, then the list returned for the father: the walk is
    depth first, mother's side first, and an ancestor reachable on both
    sides is listed on both. *)
Theorem get_ancestors_mother_first
    (fuel : nat) (h h' : Heap) (x mo fa : loc) (l : lref) :
  mother_of h x = Some mo → father_of h x = Some fa →
  get_ancestors (S fuel) h x None = Some (h', l) →
  ∃ hm lm hf lf,
    get_ancestors fuel h mo None = Some (hm, lm)
    ∧ get_ancestors fuel h fa None = Some (hf, lf)
    ∧ lists h' l = mo :: lists hm lm ++ fa :: lists hf lf.
Proof.
  intros Hmo Hfa H. apply get_ancestors_list in H.
  rewrite ancestors_dfs_step, Hmo, Hfa in H.
  apply bind_Some in H as (ma & Hma & H). apply bind_Some in H as (fa' & Hfa' & H).
  injection H as H.
  apply fmap_Some in Hma as (Am & HAm & ->).
  apply fmap_Some in Hfa' as (Af & HAf & ->).
  destruct (ancestors_dfs_list fuel h mo Am HAm) as (hm & lm & Em & <-).
  destruct (ancestors_dfs_list fuel h fa Af HAf) as (hf & lf & Ef & <-).
  exists hm, lm, hf, lf. by rewrite <- H.
Qed.

Lemma get_ancestors_mother_first_witness :
  ∃ hm lm hf lf,
    get_ancestors 2 pedigree9.1 2 None = Some (hm, lm)
    ∧ get_ancestors 2 pedigree9.1 3 None = Some (hf, lf)
    ∧ lists (append (append (append (append (append (append
               (new_list pedigree9.1 []).1 12 2) 12 1) 12 0) 12 3) 12 1) 12 0) 12
      = 2 :: lists hm lm ++ 3 :: lists hf lf.
Proof.
  apply (get_ancestors_mother_first 2 pedigree9.1 _ 4 2 3 12);
    [reflexivity | reflexivity |].
  vm_compute. reflexivity.
Defined.

(** ** Affected and unaffected individuals *)

(** X9. [find_affected] and [find_unaffected] split the collection: each
    keeps the collection's order, together they hold every entry exactly
    as often as the collection does, and no individual is in both. *)
Theorem find_affected_unaffected_partition (h : Heap) (self : Pedigree) :
  find_affected h self ++ find_unaffected h self ≡ₚ individuals self
  ∧ find_affected h self `sublist_of` individuals self
  ∧ find_unaffected h self `sublist_of` individuals self
  ∧ ∀ x, ¬ (x ∈ find_affected h self ∧ x ∈ find_unaffected h self).
Proof.
  unfold find_affected, find_unaffected. destruct self as [l]. simpl.
  split; [|split; [apply sublist_filter | split; [apply sublist_filter|]]].
  - induction l as [|x l IH]; [done|].
    destruct (affected_of h x) eqn:Ha.
    + rewrite filter_cons_True by done.
      rewrite (filter_cons_False (λ i, affected_of h i = false)) by congruence.
      simpl. by f_equiv.
    + rewrite filter_cons_False by congruence.
      rewrite (filter_cons_True (λ i, affected_of h i = false)) by done.
      rewrite <- Permutation_middle. by f_equiv.
  - intros x [H1 H2].
    apply list_elem_of_filter in H1 as [H1 _].
    apply list_elem_of_filter in H2 as [H2 _]. congruence.
Qed.

(** ** The shape of the results of the elimination *)

Lemma discards_dominant_together h x :
  discards h x "Autosomal Dominant" ↔ discards h x "X-Linked Dominant".
Proof.
  unfold discards. split; intros (fa & mo & Hf & Hm & H); exists fa, mo;
    (split; [done|]); (split; [done|]); left;
    destruct H as [[H _]|[[_ H]|[_ H]]]; try discriminate H; auto.
Qed.

Lemma discards_x_linked_recessive h x :
  discards h x "X-Linked Recessive" → discards h x "Autosomal Recessive".
Proof.
  unfold discards. intros (fa & mo & Hf & Hm & H). exists fa, mo.
  split; [done|]. split; [done|]. right. left. split; [|done].
  destruct H as [[_ [H|H]]|[[_ H]|[[_ H] _]]]; try discriminate H.
  right. destruct (affected_of h mo); [exfalso; apply H; by left|].
  split; [done|]. intros Hc. apply H. by right.
Qed.

Lemma possible_modes_closed h self s :
  possible_modes h self = Ok s →
  s ⊆ all_modes
  ∧ ("Autosomal Dominant" ∈ s ↔ "X-Linked Dominant" ∈ s)
  ∧ ("Autosomal Recessive" ∈ s → "X-Linked Recessive" ∈ s).
Proof.
  unfold possible_modes. intros Hs.
  pose proof (eliminate_all_spec h (find_affected h self) all_modes) as S.
  rewrite Hs in S. split; [|split].
  - intros m Hm. by apply S in Hm as [Hm _].
  - rewrite !S. split; intros [_ H]; (split; [unfold all_modes; set_solver|]);
      intros x Hx Hd; apply (H x Hx); by apply discards_dominant_together.
  - rewrite !S. intros [_ H]. split; [unfold all_modes; set_solver|].
    intros x Hx Hd. apply (H x Hx). by apply discards_x_linked_recessive.
Qed.

(** X10. Whatever the pedigree, the modes [find_mode_of_inheritance]
    returns keep or lose the two dominant modes together, and keep
    "X-Linked Recessive" whenever they keep "Autosomal Recessive". *)
Theorem find_mode_of_inheritance_closed (h : Heap) (self : Pedigree) (r : modes) :
  find_mode_of_inheritance h self = Ok r →
  set_of r ⊆ all_modes
  ∧ ("Autosomal Dominant" ∈ set_of r ↔ "X-Linked Dominant" ∈ set_of r)
  ∧ ("Autosomal Recessive" ∈ set_of r → "X-Linked Recessive" ∈ set_of r).
Proof.
  unfold find_mode_of_inheritance. intros H.
  apply bind_Ok in H as (s & Hs & E). injection E as <-.
  rewrite set_of_pop_if_single. by apply (possible_modes_closed h self).
Qed.

Lemma find_mode_of_inheritance_closed_witness :
  set_of (Set_ {[ "Autosomal Recessive"; "X-Linked Recessive" ]}) ⊆ all_modes
  ∧ ("Autosomal Dominant" ∈ set_of (Set_ {[ "Autosomal Recessive"; "X-Linked Recessive" ]})
     ↔ "X-Linked Dominant" ∈ set_of (Set_ {[ "Autosomal Recessive"; "X-Linked Recessive" ]}))
  ∧ ("Autosomal Recessive" ∈ set_of (Set_ {[ "Autosomal Recessive"; "X-Linked Recessive" ]})
     → "X-Linked Recessive" ∈ set_of (Set_ {[ "Autosomal Recessive"; "X-Linked Recessive" ]})).
Proof.
  apply (find_mode_of_inheritance_closed pedigree9.1 pedigree9.2
           (Set_ {[ "Autosomal Recessive"; "X-Linked Recessive" ]})).
  vm_compute. reflexivity.
Defined.

(** X11. The only mode [find_mode_of_inheritance] can return as a single
    string is "X-Linked Recessive": no pedigree makes it answer "Autosomal
    Dominant", "Autosomal Recessive" or "X-Linked Dominant" alone. *)
Theorem find_mode_of_inheritance_single (h : Heap) (self : Pedigree) (m : string) :
  find_mode_of_inheritance h self = Ok (Str m) → m = "X-Linked Recessive".
Proof.
  unfold find_mode_of_inheritance. intros H.
  apply bind_Ok in H as (s & Hs & E). injection E as E.
  apply pop_if_single_Str in E as ->.
  destruct (possible_modes_closed h self _ Hs) as (Hsub & Hdom & Hrec).
  assert (Hm : m ∈ all_modes) by (apply Hsub; set_solver).
  unfold all_modes in Hm.
  rewrite !elem_of_union, !elem_of_singleton in Hm.
  rewrite !elem_of_singleton in Hdom, Hrec.
  destruct Hm as [[[-> | ->] | ->] | ->]; [| |  |done].
  - destruct Hdom as [Hd _]. specialize (Hd eq_refl). discriminate.
  - specialize (Hrec eq_refl). discriminate.
  - destruct Hdom as [_ Hd]. specialize (Hd eq_refl). discriminate.
Qed.

Lemma find_mode_of_inheritance_single_witness :
  find_mode_of_inheritance young_family.1 young_family.2
  = Ok (Str "X-Linked Recessive")
  ∧ "X-Linked Recessive" = "X-Linked Recessive".
Proof.
  assert (H : find_mode_of_inheritance young_family.1 young_family.2
              = Ok (Str "X-Linked Recessive")) by (vm_compute; reflexivity).
  split; [exact H|].
  exact (find_mode_of_inheritance_single young_family.1 young_family.2 _ H).
Defined.

(** ** What the elimination depends on *)

Lemma eliminate_raises_parents h x pm :
  eliminate h x pm = AttributeError →
  is_Some (mother_of h x) ∧ is_Some (father_of h x).
Proof.
  intros H. pose proof (eliminate_spec h x pm) as S. rewrite H in S.
  destruct S as (p & _ & Hf & Hm & _). done.
Qed.

Lemma discards_parents h x m :
  discards h x m → is_Some (mother_of h x) ∧ is_Some (father_of h x).
Proof. intros (fa & mo & -> & -> & _). split; by eexists. Qed.

Lemma eliminate_all_evidence h l1 l2 s2 :
  (∀ x, affected_of h x = true →
        is_Some (mother_of h x) → is_Some (father_of h x) → x ∈ l1 → x ∈ l2) →
  eliminate_all h (filter (λ i, affected_of h i = true) l2) all_modes = Ok s2 →
  ∃ s1, eliminate_all h (filter (λ i, affected_of h i = true) l1) all_modes = Ok s1
        ∧ s2 ⊆ s1.
Proof.
  intros Hsub H2.
  pose proof (eliminate_all_spec h (filter (λ i, affected_of h i = true) l2) all_modes)
    as S2.
  pose proof (eliminate_all_spec h (filter (λ i, affected_of h i = true) l1) all_modes)
    as S1.
  pose proof (eliminate_all_returns h _ _ _ H2) as Hret.
  rewrite H2 in S2.
  destruct (eliminate_all h (filter _ l1) all_modes) as [s1|] eqn:E.
  - exists s1. split; [done|]. intros m. rewrite S1, S2.
    intros [Hm Hd]. split; [done|]. intros x Hx Hdx.
    apply list_elem_of_filter in Hx as [Ha Hx].
    destruct (discards_parents h x m Hdx) as [Hmo Hfa].
    apply (Hd x); [|done]. apply list_elem_of_filter. split; [done | by apply Hsub].
  - apply eliminate_all_raises in E as (x & Hx & Hr).
    apply list_elem_of_filter in Hx as [Ha Hx].
    destruct (eliminate_raises_parents h x _ Hr) as [Hmo Hfa].
    exfalso. apply (Hret x); [|done].
    apply list_elem_of_filter. split; [done | by apply Hsub].
Qed.

(** X12. [find_mode_of_inheritance] depends on the collection only through
    the set of its affected individuals that have both parents recorded:
    two collections with the same such individuals give the same outcome
    (the same string, the same set, or an exception in both), whatever
    their order, their repetitions and their other entries. *)
Theorem find_mode_of_inheritance_evidence (h : Heap) (l1 l2 : list loc) :
  (∀ x, affected_of h x = true →
        is_Some (mother_of h x) → is_Some (father_of h x) → (x ∈ l1 ↔ x ∈ l2)) →
  find_mode_of_inheritance h (mkPedigree l1) = find_mode_of_inheritance h (mkPedigree l2).
Proof.
  intros Hsame. unfold find_mode_of_inheritance, possible_modes, find_affected. simpl.
  assert (H12 : ∀ x, affected_of h x = true →
            is_Some (mother_of h x) → is_Some (father_of h x) → x ∈ l1 → x ∈ l2).
  { intros x Ha Hm Hf. by apply Hsame. }
  assert (H21 : ∀ x, affected_of h x = true →
            is_Some (mother_of h x) → is_Some (father_of h x) → x ∈ l2 → x ∈ l1).
  { intros x Ha Hm Hf. by apply Hsame. }
  destruct (eliminate_all h (filter _ l1) all_modes) as [s1|] eqn:E1;
    destruct (eliminate_all h (filter _ l2) all_modes) as [s2|] eqn:E2; simpl.
  - destruct (eliminate_all_evidence h l1 l2 s2 H12 E2) as (s1' & E1' & Hs21).
    destruct (eliminate_all_evidence h l2 l1 s1 H21 E1) as (s2' & E2' & Hs12).
    rewrite E1 in E1'. rewrite E2 in E2'. injection E1' as <-. injection E2' as <-.
    assert (s1 = s2) as -> by (apply set_eq; intros m; split; [apply Hs12 | apply Hs21]).
    done.
  - destruct (eliminate_all_evidence h l2 l1 s1 H21 E1) as (s2' & E2' & _). congruence.
  - destruct (eliminate_all_evidence h l1 l2 s2 H12 E2) as (s1' & E1' & _). congruence.
  - done.
Qed.

Lemma find_mode_of_inheritance_evidence_witness :
  find_mode_of_inheritance pedigree9.1 (mkPedigree [0; 1; 2; 3; 4; 5; 6; 7; 8; 9; 10; 11])
  = find_mode_of_inheritance pedigree9.1 (mkPedigree [4; 4]).
Proof.
  apply (find_mode_of_inheritance_evidence pedigree9.1).
  intros x Ha [mo Hmo] [fa Hfa].
  do 12 (try destruct x as [|x]); vm_compute in Ha, Hmo, Hfa;
    try discriminate Ha; try discriminate Hmo; try discriminate Hfa.
  split; intros _.
  - left.
  - do 4 right. left.
Defined.

(** ** More on the carrier heuristic *)

(** X13. An affected individual is never reported as a carrier, and
    [is_carrier] never raises for one: the answer is [None] without both
    parents and a child, and [False] otherwise. *)
Theorem is_carrier_affected (h : Heap) (x : loc) :
  affected_of h x = true →
  is_carrier h x
  = Ok (if decide (is_Some (mother_of h x) ∧ is_Some (father_of h x)
                   ∧ children_of h x ≠ [])
        then Some false else None).
Proof.
  intros Ha. unfold is_carrier.
  destruct (mother_of h x) as [mo|]; [|rewrite decide_False; [done|]].
  2: { intros [[? ?] _]. discriminate. }
  destruct (father_of h x) as [fa|]; [|rewrite decide_False; [done|]].
  2: { intros (_ & [? ?] & _). discriminate. }
  destruct (decide (children_of h x = [])) as [Hc|Hc].
  - rewrite bool_decide_eq_true_2 by done. rewrite decide_False; [done|].
    intros (_ & _ & ?). done.
  - rewrite bool_decide_eq_false_2 by done. rewrite decide_True by eauto.
    rewrite Ha. simpl. by rewrite !andb_false_r.
Qed.

Lemma is_carrier_affected_witness :
  is_carrier pedigree9.1 4 = Ok (Some false).
Proof. apply (is_carrier_affected pedigree9.1 4). reflexivity. Defined.

Lemma any_m_raises_iff {A : Type} (f : A → result bool) (l : list A) :
  any_m f l = AttributeError
  ↔ ∃ pre c post, l = pre ++ c :: post ∧ f c = AttributeError
                  ∧ ∀ y, y ∈ pre → f y = Ok false.
Proof.
  induction l as [|a l IH]; simpl.
  - split; [discriminate|]. intros (pre & c & post & E & _). by destruct pre.
  - destruct (f a) as [[|]|] eqn:Ea; simpl.
    + split; [discriminate|]. intros ([|b pre] & c & post & E & Hc & Hpre).
      * injection E as -> _. congruence.
      * injection E as -> _. specialize (Hpre b (list_elem_of_here _ _)). congruence.
    + rewrite IH. split.
      * intros (pre & c & post & -> & Hc & Hpre). exists (a :: pre), c, post.
        split; [done|]. split; [done|].
        intros y Hy. apply elem_of_cons in Hy as [->|Hy]; auto.
      * intros ([|b pre] & c & post & E & Hc & Hpre).
        -- injection E as -> _. congruence.
        -- injection E as -> ->. exists pre, c, post. split; [done|]. split; [done|].
           intros y Hy. apply Hpre. by right.
    + split; [|done]. intros _. exists [], a, l. split; [done|]. split; [done|].
      intros y Hy. inversion Hy.
Qed.

Lemma affected_with_unaffected_false (other : Heap → loc → option loc) h c :
  affected_with_unaffected other h c = Ok false
  ↔ affected_of h c = false ∨ ∃ p, other h c = Some p ∧ affected_of h p = true.
Proof.
  unfold affected_with_unaffected.
  destruct (affected_of h c).
  - destruct (other h c) as [p|].
    + destruct (affected_of h p) eqn:Hp; simpl; split.
      * intros _. right. by exists p.
      * done.
      * discriminate.
      * intros [H|(q & E & H)]; [discriminate|]. injection E as <-. congruence.
    + split; [discriminate|]. intros [H|(q & E & _)]; discriminate.
  - split; auto.
Qed.

Lemma any_m_half_recorded_first (other : Heap → loc → option loc) h l :
  any_m (affected_with_unaffected other h) l = AttributeError
  ↔ half_recorded_first other h l.
Proof.
  rewrite any_m_raises_iff. unfold half_recorded_first.
  split; intros (pre & c & post & E & H).
  - destruct H as [Hc Hpre]. apply affected_with_unaffected_raises in Hc as [Ha Hn].
    exists pre, c, post. split; [done|]. split; [done|]. split; [done|].
    intros y Hy. apply affected_with_unaffected_false. by apply Hpre.
  - destruct H as (Ha & Hn & Hpre). exists pre, c, post. split; [done|]. split.
    + unfold affected_with_unaffected. by rewrite Ha, Hn.
    + intros y Hy. apply affected_with_unaffected_false. by apply Hpre.
Qed.

(** X14. [is_carrier] raises exactly for an unaffected individual with
    both parents recorded and sex "F" (respectively "M") among whose
    children an affected child with no father (respectively mother)
    recorded comes before any affected child whose father (respectively
    mother) is recorded and unaffected. *)
Theorem is_carrier_raises_iff (h : Heap) (x : loc) :
  is_carrier h x = AttributeError
  ↔ is_Some (mother_of h x) ∧ is_Some (father_of h x) ∧ affected_of h x = false
    ∧ ((sex_of h x = "F" ∧ half_recorded_first father_of h (children_of h x))
       ∨ (sex_of h x = "M" ∧ half_recorded_first mother_of h (children_of h x))).
Proof.
  rewrite <- !any_m_half_recorded_first. unfold is_carrier.
  destruct (mother_of h x) as [mo|].
  2: { split; [discriminate|]. intros ([? ?] & _). discriminate. }
  destruct (father_of h x) as [fa|].
  2: { split; [discriminate|]. intros (_ & [? ?] & _). discriminate. }
  destruct (decide (children_of h x = [])) as [Hc|Hc].
  { rewrite bool_decide_eq_true_2 by done. rewrite Hc. simpl.
    split; [discriminate|]. intros (_ & _ & _ & [[_ H]|[_ H]]); discriminate. }
  rewrite bool_decide_eq_false_2 by done.
  destruct (affected_of h x); simpl.
  { rewrite !andb_false_r. simpl.
    split; [discriminate | intros (_ & _ & ? & _); discriminate]. }
  rewrite !andb_true_r.
  destruct (decide (sex_of h x = "F")) as [EF|EF].
  - rewrite (bool_decide_eq_true_2 (sex_of h x = "F")) by done.
    rewrite (bool_decide_eq_false_2 (sex_of h x = "M")) by (rewrite EF; discriminate).
    destruct (any_m (affected_with_unaffected father_of h) (children_of h x))
      as [[|]|]; simpl.
    + split; [discriminate|].
      intros (_ & _ & _ & [[_ H]|[H _]]); [discriminate | rewrite EF in H; discriminate].
    + match goal with |- context [if ?b then _ else _] => destruct b end;
        (split; [discriminate|]);
        intros (_ & _ & _ & [[_ H]|[H _]]);
        [discriminate | rewrite EF in H; discriminate
        |discriminate | rewrite EF in H; discriminate].
    + split; [|done]. intros _. split; [by eexists|]. split; [by eexists|]. auto.
  - rewrite (bool_decide_eq_false_2 (sex_of h x = "F")) by done. simpl.
    destruct (decide (sex_of h x = "M")) as [EM|EM].
    + rewrite (bool_decide_eq_true_2 (sex_of h x = "M")) by done.
      destruct (any_m (affected_with_unaffected mother_of h) (children_of h x))
        as [[|]|]; simpl.
      * split; [discriminate|].
        intros (_ & _ & _ & [[H _]|[_ H]]); [done | discriminate].
      * match goal with |- context [if ?b then _ else _] => destruct b end;
          (split; [discriminate|]);
          intros (_ & _ & _ & [[H _]|[_ H]]); done.
      * split; [|done]. intros _. split; [by eexists|]. split; [by eexists|]. auto.
    + rewrite (bool_decide_eq_false_2 (sex_of h x = "M")) by done. simpl.
      match goal with |- context [if ?b then _ else _] => destruct b end;
        (split; [discriminate|]);
        intros (_ & _ & _ & [[H _]|[H _]]); done.
Qed.

(** ** More on linking *)

(** X15. [add_parent_child_relationship] never changes the id, sex,
    affected status or children list object of any individual, nor the
    parents of any individual other than [self], nor the other parent of
    [self]; and only the list object that is [parent]'s children changes. *)
Theorem add_parent_child_relationship_frame (h : Heap) (x p : loc) (sex : string) :
  let h' := add_parent_child_relationship h x p sex in
  (∀ y, Individual.id (objs h' y) = Individual.id (objs h y)
        ∧ sex_of h' y = sex_of h y
        ∧ affected_of h' y = affected_of h y
        ∧ Individual.children (objs h' y) = Individual.children (objs h y))
  ∧ (∀ y, y ≠ x → mother_of h' y = mother_of h y ∧ father_of h' y = father_of h y)
  ∧ (sex ≠ "F" → mother_of h' x = mother_of h x)
  ∧ (sex ≠ "M" → father_of h' x = father_of h x)
  ∧ (∀ l, l ≠ Individual.children (objs h p) → lists h' l = lists h l).
Proof.
  cbv zeta.
  destruct (decide (sex = "M")) as [->|HM];
    [|destruct (decide (sex = "F")) as [->|HF]].
  3: { rewrite add_parent_child_relationship_other_tag by done. done. }
  all: unfold add_parent_child_relationship, append_child,
         sex_of, affected_of, mother_of, father_of; simpl.
  all: assert (Hc : ∀ y f, (∀ i q, Individual.children (f i q) = Individual.children i) →
         Individual.children ((<[x := f (objs h x) p]> (objs h)) y)
         = Individual.children (objs h y))
       by (intros y f Hf; destruct (decide (x = y)) as [->|Hne];
           [by rewrite fn_lookup_insert | by rewrite fn_lookup_insert_ne]).
  all: split; [intros y; destruct (decide (x = y)) as [->|Hne];
                 [by rewrite fn_lookup_insert | by rewrite fn_lookup_insert_ne]|].
  all: split; [intros y Hy; by rewrite fn_lookup_insert_ne|].
  all: split; [intros Hs; try done; by rewrite fn_lookup_insert|].
  all: split; [intros Hs; try done; by rewrite fn_lookup_insert|].
  - intros l Hl. rewrite (Hc p set_father) by done. by rewrite fn_lookup_insert_ne.
  - intros l Hl. rewrite (Hc p set_mother) by done. by rewrite fn_lookup_insert_ne.
Qed.

(** X16. Children are not deduplicated: recording the same parent twice
    lists the individual twice among that parent's children. *)
Theorem add_parent_child_relationship_twice (h : Heap) (x p : loc) (sex : string) :
  sex = "M" ∨ sex = "F" →
  children_of (add_parent_child_relationship
                 (add_parent_child_relationship h x p sex) x p sex) p
  = children_of h p ++ [x; x].
Proof.
  intros Hsex. rewrite !add_parent_child_relationship_appends by done.
  by rewrite <- app_assoc.
Qed.

Lemma add_parent_child_relationship_twice_witness :
  children_of (add_parent_child_relationship
                 (add_parent_child_relationship pedigree9.1 7 5 "M") 7 5 "M") 5
  = children_of pedigree9.1 5 ++ [7; 7].
Proof. apply (add_parent_child_relationship_twice pedigree9.1 7 5 "M"). by left. Defined.

(** X17. Recording a second parent under the same tag replaces the link
    but removes nothing: the individual stays in the children of the
    first parent, which is no longer recorded on it. *)
Theorem add_parent_child_relationship_replaces (h : Heap) (x p q : loc) (sex : string) :
  sex = "M" ∨ sex = "F" →
  Individual.children (objs h p) ≠ Individual.children (objs h q) →
  let h' := add_parent_child_relationship
              (add_parent_child_relationship h x p sex) x q sex in
  (sex = "M" → father_of h' x = Some q)
  ∧ (sex = "F" → mother_of h' x = Some q)
  ∧ children_of h' p = children_of h p ++ [x]
  ∧ children_of h' q = children_of h q ++ [x].
Proof.
  intros Hsex Hne. cbv zeta.
  destruct (add_parent_child_relationship_effect h x p sex Hsex)
    as (_ & _ & Hc & _).
  destruct (add_parent_child_relationship_effect
              (add_parent_child_relationship h x p sex) x q sex Hsex)
    as (_ & _ & _ & _ & _ & HMale & HFemale).
  split; [intros Hs; by apply HMale|]. split; [intros Hs; by apply HFemale|].
  rewrite !(add_parent_child_relationship_children
              (add_parent_child_relationship h x p sex)) by done.
  rewrite !Hc. rewrite decide_False by done. rewrite decide_True by done.
  rewrite !add_parent_child_relationship_children by done.
  rewrite decide_True by done. rewrite decide_False by done. done.
Qed.

Lemma add_parent_child_relationship_replaces_witness :
  ("M" = "M" →
   father_of (add_parent_child_relationship
                (add_parent_child_relationship pedigree9.1 7 5 "M") 7 3 "M") 7 = Some 3)
  ∧ ("M" = "F" →
     mother_of (add_parent_child_relationship
                  (add_parent_child_relationship pedigree9.1 7 5 "M") 7 3 "M") 7 = Some 3)
  ∧ children_of (add_parent_child_relationship
                   (add_parent_child_relationship pedigree9.1 7 5 "M") 7 3 "M") 5
    = children_of pedigree9.1 5 ++ [7]
  ∧ children_of (add_parent_child_relationship
                   (add_parent_child_relationship pedigree9.1 7 5 "M") 7 3 "M") 3
    = children_of pedigree9.1 3 ++ [7].
Proof.
  apply (add_parent_child_relationship_replaces pedigree9.1 7 5 3 "M").
  - by left.
  - vm_compute. discriminate.
Defined.

(** X18. Two individuals constructed with the same [children] list share
    it: a child linked to one of them appears among the children of the
    other as well. *)
Theorem shared_children_list
    (h : Heap) (l : lref) (ida sa idb sb : string) (aa ab : bool)
    (ma fa mb fb : option loc) (x : loc) (sex : string) :
  sex = "M" ∨ sex = "F" →
  let '(h1, a) := __init__ h ida sa aa ma fa (Some l) in
  let '(h2, b) := __init__ h1 idb sb ab mb fb (Some l) in
  children_of h2 a = lists h l ∧ children_of h2 b = lists h l
  ∧ children_of (add_parent_child_relationship h2 x a sex) b = lists h l ++ [x].
Proof.
  intros Hsex. simpl.
  assert (Ha : ∀ y, y = next_obj h ∨ y = S (next_obj h) →
    Individual.children
      ((<[S (next_obj h) := Individual.mk idb sb ab mb fb l]>
          (<[next_obj h := Individual.mk ida sa aa ma fa l]> (objs h))) y) = l).
  { intros y [-> | ->].
    - rewrite fn_lookup_insert_ne by lia. by rewrite fn_lookup_insert.
    - by rewrite fn_lookup_insert. }
  split; [|split].
  - unfold children_of. simpl. by rewrite Ha by auto.
  - unfold children_of. simpl. by rewrite Ha by auto.
  - rewrite add_parent_child_relationship_children by done. simpl.
    rewrite !Ha by auto. rewrite decide_True by done.
    unfold children_of. simpl. rewrite ?Ha by auto. done.
Qed.

Lemma shared_children_list_witness :
  let '(h1, a) := __init__ pedigree9.1 "A" "F" false None None (Some 0) in
  let '(h2, b) := __init__ h1 "B" "M" false None None (Some 0) in
  children_of h2 a = lists pedigree9.1 0 ∧ children_of h2 b = lists pedigree9.1 0
  ∧ children_of (add_parent_child_relationship h2 7 a "F") b = lists pedigree9.1 0 ++ [7].
Proof.
  apply (shared_children_list pedigree9.1 0 "A" "F" "B" "M" false false
           None None None None 7 "F").
  by right.
Defined.

(** X19. In a store built through the constructor and
    [add_parent_child_relationship], an individual constructed without a
    [children] argument gets an empty list of its own: linking a child to
    it changes the children of no individual that existed before. *)
Theorem fresh_children_list
    (h : Heap) (id_number sex : string) (affected : bool) (mo fa : option loc) :
  built h →
  let '(h1, a) := __init__ h id_number sex affected mo fa None in
  children_of h1 a = []
  ∧ ∀ y, y < next_obj h →
         children_of h1 y = children_of h y
         ∧ ∀ x s, children_of (add_parent_child_relationship h1 x a s) y
                  = children_of h y.
Proof.
  intros Hb. apply built_well_built in Hb as (_ & Hc & _).
  set (h1 := mkHeap
    (<[next_obj h := Individual.mk id_number sex affected mo fa (next_list h)]> (objs h))
    (<[next_list h := []]> (lists h)) (S (next_obj h)) (S (next_list h))).
  change (children_of h1 (next_obj h) = []
          ∧ ∀ y, y < next_obj h →
                 children_of h1 y = children_of h y
                 ∧ ∀ x s, children_of
                            (add_parent_child_relationship h1 x (next_obj h) s) y
                          = children_of h y).
  assert (Hnew : Individual.children (objs h1 (next_obj h)) = next_list h).
  { simpl. by rewrite fn_lookup_insert. }
  assert (Hold : ∀ y, y < next_obj h → objs h1 y = objs h y).
  { intros y Hy. simpl. rewrite fn_lookup_insert_ne by lia. done. }
  assert (Hch : ∀ y, y < next_obj h → children_of h1 y = children_of h y).
  { intros y Hy. unfold children_of. rewrite Hold by done. simpl.
    rewrite fn_lookup_insert_ne; [done|]. specialize (Hc y Hy). lia. }
  split.
  - unfold children_of. rewrite Hnew. simpl. by rewrite fn_lookup_insert.
  - intros y Hy. split; [by apply Hch|]. intros x s.
    destruct (decide (s = "M")) as [HM|HM];
      [|destruct (decide (s = "F")) as [HF|HF]].
    3: { rewrite add_parent_child_relationship_other_tag by done. by apply Hch. }
    all: rewrite add_parent_child_relationship_children by auto.
    all: rewrite Hnew, Hold by done.
    all: rewrite decide_False; [by apply Hch|].
    all: specialize (Hc y Hy); lia.
Qed.

Lemma fresh_children_list_witness :
  let '(h1, a) := __init__ linked_pair "N" "F" false None None None in
  children_of h1 a = []
  ∧ ∀ y, y < next_obj linked_pair →
         children_of h1 y = children_of linked_pair y
         ∧ ∀ x s, children_of (add_parent_child_relationship h1 x a s) y
                  = children_of linked_pair y.
Proof.
  apply (fresh_children_list linked_pair "N" "F" false None None).
  unfold linked_pair, individual.
  apply built_add; [| simpl; lia | simpl; lia].
  repeat (apply built_init; [| discriminate]).
  apply built_empty.
Defined.

(** X20. [add_parent_child_relationship] accepts an individual as its own
    parent, and after such a call neither [get_generation] nor
    [get_ancestors] returns for that individual, whatever the depth
    allowed. *)
Theorem self_parent_diverges (h : Heap) (x : loc) (sex : string) :
  sex = "M" ∨ sex = "F" →
  let h' := add_parent_child_relationship h x x sex in
  parent_of h' x x
  ∧ ∀ fuel, get_generation fuel h' x = None
            ∧ ∀ ancestors, get_ancestors fuel h' x ancestors = None.
Proof.
  intros Hsex. cbv zeta.
  destruct (add_parent_child_relationship_effect h x x sex Hsex)
    as (_ & _ & _ & _ & _ & HMale & HFemale).
  assert (Hp : parent_of (add_parent_child_relationship h x x sex) x x).
  { destruct Hsex as [Hs|Hs]; [right; by apply HMale | left; by apply HFemale]. }
  split; [done|]. intros fuel.
  assert (Hg : get_generation fuel (add_parent_child_relationship h x x sex) x = None).
  { destruct (get_generation fuel _ x) as [g|] eqn:E; [|done].
    destruct (get_generation_parent fuel _ x g x E Hp) as (g' & E' & Hlt).
    rewrite E in E'. injection E' as <-. lia. }
  split; [done|]. intros ancestors.
  pose proof (get_ancestors_spec fuel (add_parent_child_relationship h x x sex) x
                ancestors) as S.
  destruct (ancestors_dfs fuel _ x) as [A|] eqn:EA.
  - apply ancestors_dfs_generation in EA as (g & Eg & _). congruence.
  - by destruct ancestors.
Qed.

Lemma self_parent_diverges_witness :
  parent_of (add_parent_child_relationship pedigree9.1 0 0 "F") 0 0
  ∧ ∀ fuel, get_generation fuel (add_parent_child_relationship pedigree9.1 0 0 "F") 0
            = None
            ∧ ∀ ancestors,
                get_ancestors fuel (add_parent_child_relationship pedigree9.1 0 0 "F")
                  0 ancestors = None.
Proof. apply (self_parent_diverges pedigree9.1 0 "F"). by right. Defined.
